(** * MiLi Ranker (include/ranker.h): a bounded, ordered ranking

    A shallow embedding of the class template
    [Ranker<T, Behavior, Comp, DisposalPolicy>] and the properties of its
    member functions.

    - The container [std::list<T> ranking] is a Rocq [list T]; the constant
      member [TOP] is a [nat].
    - An iterator into the list is the index of the node it designates;
      [ranking.end()] is the length of the list.
    - The template parameter [Comp] is a boolean function [Comp x y]
      (the value of [Comp()(x, y)]), [operator==] on [T] is a boolean
      function [eqb].
    - [DisposalPolicy()(x)] is an effect. Every member function returns,
      next to its result, the list of the elements the policy was called
      on, in call order; a concrete policy is run over that list by
      [run_policy].
    - A member function whose body dereferences or erases [ranking.end()]
      has no defined result there: it returns [None]. *)

From Stdlib Require Import List Bool Arith Lia ZArith.
From Stdlib Require Import Sorting.Sorted Sorting.Permutation.
Import ListNotations.

Set Implicit Arguments.

(** ** The configuration types of the header *)

(* to do when you insert an existing value *)
Inductive SameValueBehavior : Type :=
| AddBeforeEqual
| AddAfterEqual.

(** [Comp] is required by [std::equal_range] to be a strict weak order:
    irreflexive, transitive, and with a transitive incomparability
    relation ("equal-ranked" elements: neither is less than the other). *)
Record StrictWeakOrder {T : Type} (Comp : T -> T -> bool) : Prop := {
  swo_irrefl : forall x, Comp x x = false;
  swo_trans : forall x y z, Comp x y = true -> Comp y z = true -> Comp x z = true;
  swo_equiv_trans : forall x y z,
      Comp x y = false -> Comp y x = false ->
      Comp y z = false -> Comp z y = false ->
      Comp x z = false /\ Comp z x = false
}.

(** ** Disposal policies

    A policy is a function object applied to a departing element; its
    effect is a change of some world [W] outside the container. *)
Definition DisposalPolicy (T W : Type) : Type := T -> W -> W.

(** [DisposalNullPolicy::operator()] has an empty body. *)
Definition DisposalNullPolicy {T W : Type} : DisposalPolicy T W :=
  fun _ w => w.

(** [DisposalDeletePolicy::operator()] is [delete element]. A handle is
    an address, [0] the null pointer. The world is the list of live
    allocations, or [None] once an address that is neither null nor live
    has been deleted; [delete] of the null pointer does nothing. *)
Definition DisposalDeletePolicy : DisposalPolicy nat (option (list nat)) :=
  fun element w =>
    match w with
    | None => None
    | Some live =>
        if Nat.eqb element 0 then Some live
        else if existsb (Nat.eqb element) live
        then Some (filter (fun a => negb (Nat.eqb element a)) live)
        else None
    end.

(** The handles among [handles] that are not the null pointer. *)
Definition non_null (handles : list nat) : list nat :=
  filter (fun h => negb (Nat.eqb h 0)) handles.

(** The policy calls of a member function, performed in order. *)
Definition run_policy {T W : Type} (policy : DisposalPolicy T W)
  (calls : list T) (w : W) : W :=
  fold_left (fun w x => policy x w) calls w.

(** ** The algorithms of the standard library used by the header *)

Section Algorithms.
Context {T : Type}.

(** [std::partition_point]: the length of the longest prefix on which
    [p] holds. *)
Fixpoint partition_point (p : T -> bool) (l : list T) : nat :=
  match l with
  | [] => 0
  | x :: l' => if p x then S (partition_point p l') else 0
  end.

Variable Comp : T -> T -> bool.

(** [std::lower_bound(first, last, value, comp)]: the furthermost
    iterator [i] such that [comp( *j, value)] holds for every [j] in
    [[first, i)]. The range is required to be partitioned by that
    condition, as every sorted ranking is; there this is the iterator any
    implementation of the search returns. *)
Definition lower_bound (l : list T) (value : T) : nat :=
  partition_point (fun x => Comp x value) l.

(** [std::upper_bound(first, last, value, comp)]: the furthermost
    iterator [i] such that [!comp(value, *j)] holds for every [j] in
    [[first, i)]. *)
Definition upper_bound (l : list T) (value : T) : nat :=
  partition_point (fun x => negb (Comp value x)) l.

(** [std::equal_range]: the pair of both bounds. Where the range is not
    partitioned with respect to [value] the standard does not fix the
    iterators returned; what depends on them is stated below for ranges
    that are partitioned, as the sorted rankings under a strict weak
    order are. *)
Definition equal_range (l : list T) (value : T) : nat * nat :=
  (lower_bound l value, upper_bound l value).

Variable eqb : T -> T -> bool.

(** [std::find(first, last, value)]: the first iterator [i] with
    [*i == value], or [last]. *)
Fixpoint find (l : list T) (value : T) : nat :=
  match l with
  | [] => 0
  | x :: l' => if eqb x value then 0 else S (find l' value)
  end.

(** [std::distance(first, last)] on iterators of one list. *)
Definition distance (first last : nat) : nat := last - first.

(** [std::list::insert(pos, x)]: a new node before the node of [pos]. *)
Definition list_insert (pos : nat) (x : T) (l : list T) : list T :=
  firstn pos l ++ x :: skipn pos l.

(** [std::list::erase(pos)] for a dereferenceable [pos]. *)
Definition list_erase (pos : nat) (l : list T) : list T :=
  firstn pos l ++ skipn (S pos) l.

(** [std::list::remove(value)]: erases every [i] with [*i == value]. *)
Definition list_remove (value : T) (l : list T) : list T :=
  filter (fun x => negb (eqb x value)) l.

(** [std::is_sorted(first, last, comp)]: no element is less than its
    predecessor. *)
Fixpoint is_sorted (l : list T) : bool :=
  match l with
  | [] => true
  | x :: l' =>
      match l' with
      | [] => true
      | y :: _ => negb (Comp y x) && is_sorted l'
      end
  end.
End Algorithms.

(** ** The class [Ranker] *)

Section RankerClass.
Context {T : Type}.
Variable Behavior : SameValueBehavior.
Variable Comp : T -> T -> bool.
Variable eqb : T -> T -> bool.

Record Ranker : Type := mkRanker {
  ranking : list T;   (* Container. *)
  TOP : nat           (* Maximum number of elements. *)
}.

(* Constructor *)
Definition new (top : nat) : Ranker := mkRanker [] top.

(* Inserts the element. *)
Definition insert (element : T) (r : Ranker) : bool * Ranker * list T :=
  let position := equal_range Comp (ranking r) element in
  let top_not_reached := length (ranking r) <? TOP r in
  let pos := match Behavior with
             | AddBeforeEqual => fst position
             | AddAfterEqual => snd position
             end in
  let ranking1 := list_insert pos element (ranking r) in
  (* [pos] still designates the node it did, now one place further *)
  let pos1 := S pos in
  if negb top_not_reached then
    let success := negb (distance pos1 (length ranking1) =? 0) in
    (success, mkRanker (removelast ranking1) (TOP r),
      [last ranking1 element])
  else
    (true, mkRanker ranking1 (TOP r), []).

(* Removes the first occurrence of element. *)
Definition remove_first (element : T) (r : Ranker)
  : option (Ranker * list T) :=
  let pos := find eqb (ranking r) element in
  match nth_error (ranking r) pos with
  | Some x => Some (mkRanker (list_erase pos (ranking r)) (TOP r), [x])
  | None => None      (* [*pos] with [pos == ranking.end()] *)
  end.

(* Removes all occurrences of element. *)
Definition remove_all (element : T) (r : Ranker) : Ranker * list T :=
  (mkRanker (list_remove eqb element (ranking r)) (TOP r),
    filter (fun x => eqb element x) (ranking r)).

(** The overloads taking [T* element]: the argument is compared with and
    disposed as an element, so it is given here as the [T] it converts
    to. *)

(* Removes the first occurrence of element. *)
Definition remove_first_ptr (element : T) (r : Ranker)
  : option (Ranker * list T) :=
  let pos := find eqb (ranking r) element in
  if pos <? length (ranking r)
  then Some (mkRanker (list_erase pos (ranking r)) (TOP r), [element])
  else None.          (* [ranking.erase(ranking.end())] *)

(* Removes all occurrences of element. *)
Definition remove_all_ptr (element : T) (r : Ranker) : Ranker * list T :=
  (mkRanker (list_remove eqb element (ranking r)) (TOP r), [element]).

(* True if the Ranker is empty. *)
Definition empty (r : Ranker) : bool :=
  match ranking r with [] => true | _ :: _ => false end.

(* Returns the size of the Ranker. *)
Definition size (r : Ranker) : nat := length (ranking r).

(* Erases all of the elements. *)
Definition clear (r : Ranker) : Ranker * list T :=
  (mkRanker [] (TOP r), ranking r).

(** The destructor calls [clear]. *)
Definition destroy (r : Ranker) : list T := snd (clear r).

(* Returns the top element. *)
Definition top (r : Ranker) : option T := hd_error (ranking r).

(* Returns the bottom element. *)
Definition bottom (r : Ranker) : option T :=
  match ranking r with
  | [] => None
  | x :: l => Some (last l x)
  end.

(** *** Sequences of calls *)

Inductive Op : Type :=
| OpInsert (element : T)
| OpRemoveFirst (element : T)
| OpRemoveAll (element : T)
| OpRemoveFirstPtr (element : T)
| OpRemoveAllPtr (element : T)
| OpClear.

(** One completed call: the ranker after it and the policy calls it
    made. *)
Definition step (o : Op) (r : Ranker) : option (Ranker * list T) :=
  match o with
  | OpInsert e => let '(_, r', d) := insert e r in Some (r', d)
  | OpRemoveFirst e => remove_first e r
  | OpRemoveAll e => Some (remove_all e r)
  | OpRemoveFirstPtr e => remove_first_ptr e r
  | OpRemoveAllPtr e => Some (remove_all_ptr e r)
  | OpClear => Some (clear r)
  end.

Fixpoint run (ops : list Op) (r : Ranker) : option (Ranker * list T) :=
  match ops with
  | [] => Some (r, [])
  | o :: ops' =>
      match step o r with
      | None => None
      | Some (r1, d1) =>
          match run ops' r1 with
          | None => None
          | Some (r2, d2) => Some (r2, d1 ++ d2)
          end
      end
  end.

(** The results of a sequence of [insert] calls, in call order. *)
Fixpoint insert_all (es : list T) (r : Ranker) : list bool * Ranker :=
  match es with
  | [] => ([], r)
  | e :: es' =>
      let '(ok, r1, _) := insert e r in
      let '(oks, r2) := insert_all es' r1 in
      (ok :: oks, r2)
  end.

(** Invariant I2. *)
Definition sorted (r : Ranker) : Prop := is_sorted Comp (ranking r) = true.
End RankerClass.

(** The iterator [insert] passes to [ranking.insert]: one end of the equal
    range, chosen by [Behavior]. *)
Definition insert_pos {T : Type} (Behavior : SameValueBehavior)
  (Comp : T -> T -> bool) (l : list T) (element : T) : nat :=
  match Behavior with
  | AddBeforeEqual => lower_bound Comp l element
  | AddAfterEqual => upper_bound Comp l element
  end.

(** The tie-break rule seen from the bottom [b] of the ranking:
    [element] goes below [b] when [b] is less than it, and also when the
    two are equal-ranked and equals are added after. *)
Definition sorts_at_or_below {T : Type} (Behavior : SameValueBehavior)
  (Comp : T -> T -> bool) (element b : T) : bool :=
  match Behavior with
  | AddBeforeEqual => Comp b element
  | AddAfterEqual => negb (Comp element b)
  end.

(** Equal-ranked under [Comp]: neither is less than the other. *)
Definition equiv {T : Type} (Comp : T -> T -> bool) (x y : T) : bool :=
  negb (Comp x y) && negb (Comp y x).

(** The elements an operation hands to the ranking. *)
Definition added {T : Type} (o : Op (T:=T)) : list T :=
  match o with
  | OpInsert e => [e]
  | _ => []
  end.

Definition inserted {T : Type} (ops : list (Op (T:=T))) : list T :=
  flat_map added ops.

(** The operations that compare and dispose by value. *)
Definition by_value {T : Type} (o : Op (T:=T)) : bool :=
  match o with
  | OpRemoveFirstPtr _ | OpRemoveAllPtr _ => false
  | _ => true
  end.

(** [subseq l' l]: [l'] is [l] with some elements left out, the others in
    their order. *)
Inductive subseq {T : Type} : list T -> list T -> Prop :=
| subseq_nil : subseq [] []
| subseq_skip : forall x l' l, subseq l' l -> subseq l' (x :: l)
| subseq_keep : forall x l' l, subseq l' l -> subseq (x :: l') (x :: l).

(** [x] does not rank after [y]. *)
Definition not_after {T : Type} (Comp : T -> T -> bool) (x y : T) : Prop :=
  Comp y x = false.

(** The three outcomes of [insert]: below capacity the element is added;
    at capacity it is either rejected at the tail, or added while the old
    bottom is evicted. *)
Inductive insert_outcome {T : Type} (Behavior : SameValueBehavior)
  (Comp : T -> T -> bool) (element : T) (r : Ranker (T:=T))
  : bool * Ranker (T:=T) * list T -> Prop :=
| insert_room :
    length (ranking r) < TOP r ->
    insert_outcome Behavior Comp element r
      (true,
       mkRanker (list_insert (insert_pos Behavior Comp (ranking r) element)
                   element (ranking r)) (TOP r),
       [])
| insert_rejected :
    TOP r <= length (ranking r) ->
    insert_pos Behavior Comp (ranking r) element = length (ranking r) ->
    insert_outcome Behavior Comp element r (false, r, [element])
| insert_evicting :
    TOP r <= length (ranking r) ->
    insert_pos Behavior Comp (ranking r) element < length (ranking r) ->
    insert_outcome Behavior Comp element r
      (true,
       mkRanker (list_insert (insert_pos Behavior Comp (ranking r) element)
                   element (removelast (ranking r))) (TOP r),
       [last (ranking r) element]).

(** [std::less] on the value of an element that also carries the number
    of the [insert] call it came from: the number tells equal values
    apart and is invisible to the order. *)
Definition less_by_value (a b : nat * Z) : bool := Z.ltb (snd a) (snd b).

(** [operator==] on such elements compares the values. *)
Definition equal_by_value (a b : nat * Z) : bool := Z.eqb (snd a) (snd b).

(** [x] has an occurrence in [l] before an occurrence of [y]. *)
Fixpoint precedes {T : Type} (l : list T) (x y : T) : Prop :=
  match l with
  | [] => False
  | z :: l' => (z = x /\ In y l') \/ precedes l' x y
  end.

(** The order the tie-break rule gives two equal-ranked elements [x]
    before [y] of the ranking, in terms of the sequence [es] of inserted
    elements: insertion order when equals are added after, the reverse
    when they are added before. *)
Definition insertion_ordered {T : Type} (Behavior : SameValueBehavior)
  (es : list T) (x y : T) : Prop :=
  match Behavior with
  | AddBeforeEqual => precedes es y x
  | AddAfterEqual => precedes es x y
  end.

(* Returns a const_iterator pointing to the beginning of the Ranker. *)
Definition begin {T : Type} (r : Ranker (T:=T)) : nat := 0.

(* Returns a const_iterator pointing to the end of the Ranker. *)
Definition end_ {T : Type} (r : Ranker (T:=T)) : nat := length (ranking r).

(** [*it] for a const_iterator [it] of the ranker; [None] at [end()]. *)
Definition deref {T : Type} (r : Ranker (T:=T)) (it : nat) : option T :=
  nth_error (ranking r) it.

(** ** Lemmas on the list algorithms *)

Section AlgorithmFacts.
Context {T : Type}.
Implicit Types (l : list T) (p : T -> bool).

Lemma partition_point_le p l : partition_point p l <= length l.
Proof.
  induction l as [|x l IH]; simpl; [lia|].
  destruct (p x); simpl; lia.
Qed.

Lemma partition_point_prefix p l :
  Forall (fun x => p x = true) (firstn (partition_point p l) l).
Proof.
  induction l as [|x l IH]; simpl; [constructor|].
  destruct (p x) eqn:E; simpl; constructor; assumption.
Qed.

(** Any correct search finds the same iterator: the partition point of a
    partitioned list is unique. *)
Lemma partition_point_unique p l1 l2 :
  Forall (fun x => p x = true) l1 ->
  (forall x, hd_error l2 = Some x -> p x = false) ->
  partition_point p (l1 ++ l2) = length l1.
Proof.
  intros H1 H2. induction H1 as [|x l1 Hx _ IH]; simpl.
  - destruct l2 as [|y l2]; simpl; [reflexivity|].
    rewrite (H2 y eq_refl). reflexivity.
  - rewrite Hx, IH. reflexivity.
Qed.

Lemma partition_point_all p l :
  partition_point p l = length l <-> Forall (fun x => p x = true) l.
Proof.
  split.
  - intros E. pose proof (partition_point_prefix p l) as H.
    rewrite E, firstn_all in H. exact H.
  - intros H. induction H as [|x l Hx _ IH]; simpl; [reflexivity|].
    rewrite Hx, IH. reflexivity.
Qed.

Lemma length_list_insert pos (x : T) l :
  length (list_insert pos x l) = S (length l).
Proof.
  unfold list_insert.
  pose proof (f_equal (@length T) (firstn_skipn pos l)) as E.
  rewrite length_app in *; simpl. lia.
Qed.

Lemma list_insert_end (x : T) l : list_insert (length l) x l = l ++ [x].
Proof.
  unfold list_insert. rewrite firstn_all, skipn_all. reflexivity.
Qed.

Lemma list_insert_cons (a x : T) pos l :
  list_insert (S pos) x (a :: l) = a :: list_insert pos x l.
Proof. reflexivity. Qed.

Lemma list_insert_nonempty pos (x : T) l : list_insert pos x l <> [].
Proof.
  intros E. apply (f_equal (@length T)) in E.
  rewrite length_list_insert in E. discriminate.
Qed.

Lemma removelast_list_insert pos (x : T) l :
  pos < length l ->
  removelast (list_insert pos x l) = list_insert pos x (removelast l).
Proof.
  revert pos. induction l as [|a l IH]; intros pos Hlt; simpl in Hlt; [lia|].
  destruct pos as [|pos].
  - unfold list_insert; simpl. destruct l; reflexivity.
  - rewrite list_insert_cons.
    assert (Hl : pos < length l) by lia.
    destruct l as [|b l]; [simpl in Hl; lia|].
    change (removelast (a :: b :: l)) with (a :: removelast (b :: l)).
    rewrite list_insert_cons, <- IH by exact Hl.
    simpl. destruct (list_insert pos x (b :: l)) eqn:E; [|reflexivity].
    exfalso. exact (list_insert_nonempty _ _ _ E).
Qed.

Lemma last_list_insert pos (x d : T) l :
  pos < length l -> last (list_insert pos x l) d = last l d.
Proof.
  revert pos. induction l as [|a l IH]; intros pos Hlt; simpl in Hlt; [lia|].
  destruct pos as [|pos].
  - unfold list_insert; simpl. reflexivity.
  - rewrite list_insert_cons.
    assert (Hl : pos < length l) by lia.
    destruct l as [|b l]; [simpl in Hl; lia|].
    change (last (a :: b :: l) d) with (last (b :: l) d).
    rewrite <- (IH pos Hl).
    simpl. destruct (list_insert pos x (b :: l)) eqn:E; [|reflexivity].
    exfalso. exact (list_insert_nonempty _ _ _ E).
Qed.

Lemma list_insert_split pos (x : T) l :
  list_insert pos x l = removelast (list_insert pos x l)
                          ++ [last (list_insert pos x l) x].
Proof. apply app_removelast_last, list_insert_nonempty. Qed.

Lemma nth_error_list_insert pos (x : T) l :
  pos <= length l -> nth_error (list_insert pos x l) pos = Some x.
Proof.
  intros Hle. unfold list_insert.
  rewrite nth_error_app2; rewrite length_firstn, Nat.min_l by exact Hle;
    [|lia].
  rewrite Nat.sub_diag. reflexivity.
Qed.

Lemma Permutation_list_insert pos (x : T) l :
  Permutation (list_insert pos x l) (x :: l).
Proof.
  unfold list_insert. symmetry.
  rewrite <- (firstn_skipn pos l) at 1.
  apply Permutation_middle.
Qed.

Lemma In_list_insert pos (x y : T) l :
  In y (list_insert pos x l) <-> y = x \/ In y l.
Proof.
  split; intros H.
  - apply (Permutation_in _ (Permutation_list_insert pos x l)) in H.
    destruct H as [H|H]; [left; congruence|right; exact H].
  - apply (Permutation_in _ (Permutation_sym (Permutation_list_insert pos x l))).
    destruct H as [H|H]; [left; congruence|right; exact H].
Qed.

Lemma snoc_cases l : l = [] \/ exists l0 b, l = l0 ++ [b].
Proof.
  destruct l as [|x l]; [left; reflexivity|right].
  destruct (@exists_last _ (x :: l) ltac:(discriminate)) as [l0 [b E]].
  exists l0, b. exact E.
Qed.

Lemma filter_all (p : T -> bool) l :
  (forall x, In x l -> p x = true) -> filter p l = l.
Proof.
  induction l as [|a l IH]; simpl; intros H; [reflexivity|].
  rewrite (H a (or_introl eq_refl)). f_equal. apply IH.
  intros x Hx. apply H. right; exact Hx.
Qed.
End AlgorithmFacts.

(** ** Sortedness under [Comp] *)

Section SortedFacts.
Context {T : Type}.
Variable Comp : T -> T -> bool.
Implicit Types (l : list T) (x y z e : T).

Lemma is_sorted_Sorted l :
  is_sorted Comp l = true <-> Sorted (not_after Comp) l.
Proof.
  induction l as [|x l IH]; [split; [constructor|reflexivity]|].
  destruct l as [|y l].
  - split; [repeat constructor|reflexivity].
  - change (is_sorted Comp (x :: y :: l))
      with (negb (Comp y x) && is_sorted Comp (y :: l)).
    rewrite andb_true_iff, negb_true_iff, IH. split.
    + intros [Hxy Hs]. constructor; [exact Hs|constructor; exact Hxy].
    + intros Hs. apply Sorted_inv in Hs. destruct Hs as [Hs Hd].
      apply HdRel_inv in Hd. split; assumption.
Qed.

Lemma Sorted_removelast l :
  Sorted (not_after Comp) l -> Sorted (not_after Comp) (removelast l).
Proof.
  induction 1 as [|x l Hs IH Hd]; simpl; [constructor|].
  destruct l as [|y l]; [constructor|].
  constructor; [exact IH|].
  apply HdRel_inv in Hd. simpl. destruct l; constructor; exact Hd.
Qed.

(** Inserting at the partition point of a predicate that separates the
    elements not after [e] from those not before it keeps the list
    sorted. *)
Lemma Sorted_insert_partition_point (p : T -> bool) e l :
  (forall x, p x = true -> not_after Comp x e) ->
  (forall x, p x = false -> not_after Comp e x) ->
  Sorted (not_after Comp) l ->
  Sorted (not_after Comp) (list_insert (partition_point p l) e l).
Proof.
  intros Hlo Hhi. induction 1 as [|x l Hs IH Hd]; simpl.
  - unfold list_insert; simpl. repeat constructor.
  - destruct (p x) eqn:E.
    + rewrite list_insert_cons. constructor; [exact IH|].
      destruct l as [|y l]; simpl.
      * unfold list_insert; simpl. constructor. apply Hlo, E.
      * apply HdRel_inv in Hd. destruct (p y).
        -- rewrite list_insert_cons. constructor. exact Hd.
        -- unfold list_insert; simpl. constructor. apply Hlo, E.
    + unfold list_insert; simpl. constructor.
      * constructor; assumption.
      * constructor. apply Hhi, E.
Qed.

Hypothesis HComp : StrictWeakOrder Comp.

Lemma swo_asym x y : Comp x y = true -> Comp y x = false.
Proof.
  intros H. destruct (Comp y x) eqn:E; [|reflexivity].
  pose proof (swo_trans HComp _ _ _ H E) as F.
  rewrite (swo_irrefl HComp) in F. discriminate.
Qed.

Lemma not_after_trans x y z :
  not_after Comp x y -> not_after Comp y z -> not_after Comp x z.
Proof.
  unfold not_after. intros Hyx Hzy.
  destruct (Comp z x) eqn:Hzx; [exfalso|reflexivity].
  destruct (Comp x y) eqn:Hxy.
  { rewrite (swo_trans HComp _ _ _ Hzx Hxy) in Hzy. discriminate. }
  destruct (Comp y z) eqn:Hyz.
  { rewrite (swo_trans HComp _ _ _ Hyz Hzx) in Hyx. discriminate. }
  destruct (swo_equiv_trans HComp _ _ _ Hxy Hyx Hyz Hzy) as [_ F].
  congruence.
Qed.

Lemma Sorted_strongly l :
  Sorted (not_after Comp) l <-> StronglySorted (not_after Comp) l.
Proof.
  split; [|apply StronglySorted_Sorted].
  apply Sorted_StronglySorted. intros x y z. apply not_after_trans.
Qed.

Lemma StronglySorted_app_inv l1 l2 :
  StronglySorted (not_after Comp) (l1 ++ l2) ->
  StronglySorted (not_after Comp) l1 /\ StronglySorted (not_after Comp) l2 /\
  (forall x y, In x l1 -> In y l2 -> not_after Comp x y).
Proof.
  induction l1 as [|a l1 IH]; simpl; intros H.
  - repeat split; [constructor|exact H|intros ? ? []].
  - apply StronglySorted_inv in H. destruct H as [Hs Hf].
    destruct (IH Hs) as (H1 & H2 & H12).
    rewrite Forall_app in Hf. destruct Hf as [Hf1 Hf2].
    repeat split; [constructor; assumption|exact H2|].
    intros x y [<-|Hx] Hy; [|exact (H12 _ _ Hx Hy)].
    rewrite Forall_forall in Hf2. exact (Hf2 _ Hy).
Qed.

Lemma Sorted_subseq l' l :
  subseq l' l -> Sorted (not_after Comp) l -> Sorted (not_after Comp) l'.
Proof.
  intros Hsub Hs. apply Sorted_strongly in Hs. apply Sorted_strongly.
  induction Hsub as [|x l' l Hsub IH|x l' l Hsub IH].
  - constructor.
  - apply StronglySorted_inv in Hs. apply IH, Hs.
  - apply StronglySorted_inv in Hs. destruct Hs as [Hs Hf].
    constructor; [exact (IH Hs)|].
    clear IH Hs. induction Hsub; [constructor| |].
    + apply IHHsub. inversion Hf; assumption.
    + inversion Hf; subst. constructor; [assumption|]. apply IHHsub. assumption.
Qed.
End SortedFacts.

Section SubseqFacts.
Context {T : Type}.
Implicit Types (l : list T).

Lemma subseq_refl l : subseq l l.
Proof. induction l; constructor; assumption. Qed.

Lemma subseq_filter (p : T -> bool) l : subseq (filter p l) l.
Proof.
  induction l as [|x l IH]; simpl; [constructor|].
  destruct (p x); constructor; exact IH.
Qed.

Lemma subseq_app l1 l1' l2 l2' :
  subseq l1' l1 -> subseq l2' l2 -> subseq (l1' ++ l2') (l1 ++ l2).
Proof.
  intros H1 H2. induction H1; simpl; [exact H2| |]; constructor; assumption.
Qed.

Lemma subseq_nil_l l : subseq [] l.
Proof. induction l; constructor; assumption. Qed.

Lemma subseq_list_erase pos l : subseq (list_erase pos l) l.
Proof.
  unfold list_erase. rewrite <- (firstn_skipn pos l) at 3.
  apply subseq_app; [apply subseq_refl|].
  destruct (skipn pos l) as [|x s] eqn:E.
  - assert (E' : skipn (S pos) l = []).
    { apply skipn_all_iff. apply skipn_all_iff in E. lia. }
    rewrite E'. constructor.
  - replace (skipn (S pos) l) with s.
    + constructor. apply subseq_refl.
    + change (S pos) with (1 + pos). rewrite <- skipn_skipn, E. reflexivity.
Qed.

Lemma subseq_length l' l : subseq l' l -> length l' <= length l.
Proof. induction 1; simpl; lia. Qed.
End SubseqFacts.

(** ** The three outcomes of [insert] *)

Section InsertFacts.
Context {T : Type}.
Variable Behavior : SameValueBehavior.
Variable Comp : T -> T -> bool.
Implicit Types (l : list T) (r : Ranker (T:=T)) (element : T).

Lemma insert_pos_le l element :
  insert_pos Behavior Comp l element <= length l.
Proof.
  unfold insert_pos, lower_bound, upper_bound.
  destruct Behavior; apply partition_point_le.
Qed.

Lemma insert_unfold element r :
  insert Behavior Comp element r =
  let pos := insert_pos Behavior Comp (ranking r) element in
  let ranking1 := list_insert pos element (ranking r) in
  if length (ranking r) <? TOP r
  then (true, mkRanker ranking1 (TOP r), [])
  else (negb (pos =? length (ranking r)),
        mkRanker (removelast ranking1) (TOP r), [last ranking1 element]).
Proof.
  unfold insert. cbv zeta.
  change (match Behavior with
          | AddBeforeEqual => fst (equal_range Comp (ranking r) element)
          | AddAfterEqual => snd (equal_range Comp (ranking r) element)
          end) with (insert_pos Behavior Comp (ranking r) element).
  destruct (length (ranking r) <? TOP r); simpl; [reflexivity|].
  rewrite length_list_insert. unfold distance.
  pose proof (insert_pos_le (ranking r) element) as Hle.
  replace (S (length (ranking r)) - S (insert_pos Behavior Comp (ranking r) element) =? 0)
    with (insert_pos Behavior Comp (ranking r) element =? length (ranking r));
    [reflexivity|].
  destruct (Nat.eqb_spec (insert_pos Behavior Comp (ranking r) element)
              (length (ranking r))) as [E|E]; symmetry.
  - apply Nat.eqb_eq. lia.
  - apply Nat.eqb_neq. lia.
Qed.

Lemma insert_cases element r :
  insert_outcome Behavior Comp element r (insert Behavior Comp element r).
Proof.
  rewrite insert_unfold. cbv zeta.
  pose proof (insert_pos_le (ranking r) element) as Hle.
  destruct (Nat.ltb_spec (length (ranking r)) (TOP r)) as [Hlt|Hge].
  - apply insert_room. exact Hlt.
  - destruct (Nat.eqb_spec (insert_pos Behavior Comp (ranking r) element)
                (length (ranking r))) as [E|E]; simpl.
    + rewrite E, list_insert_end, removelast_last, last_last.
      destruct r as [l top]; simpl in *.
      apply insert_rejected; simpl; assumption.
    + assert (Hlt : insert_pos Behavior Comp (ranking r) element
                    < length (ranking r)) by lia.
      rewrite removelast_list_insert, last_list_insert by exact Hlt.
      apply insert_evicting; assumption.
Qed.

Lemma length_removelast l : length (removelast l) = pred (length l).
Proof.
  destruct l as [|x l]; [reflexivity|].
  pose proof (@app_removelast_last T (x :: l) x ltac:(discriminate)) as E.
  apply (f_equal (@length T)) in E. rewrite length_app in E.
  simpl in E |- *. lia.
Qed.
End InsertFacts.

(** ** The bottom of a sorted ranking *)

Section BottomFacts.
Context {T : Type}.
Variable Behavior : SameValueBehavior.
Variable Comp : T -> T -> bool.
Implicit Types (l : list T) (r : Ranker (T:=T)) (element : T).

Lemma last_cons_default l (x d : T) : last (x :: l) d = last l x.
Proof.
  revert x d. induction l as [|y l IH]; intros x d; [reflexivity|].
  change (last (x :: y :: l) d) with (last (y :: l) d).
  rewrite (IH y d), (IH y x). reflexivity.
Qed.

Lemma bottom_snoc r b :
  bottom r = Some b <-> exists l0, ranking r = l0 ++ [b].
Proof.
  unfold bottom. destruct (ranking r) as [|x l]; split.
  - discriminate.
  - intros [[|? ?] E]; discriminate.
  - intros [= <-]. exists (removelast (x :: l)).
    rewrite <- (last_cons_default l x x).
    apply app_removelast_last. discriminate.
  - intros [l0 E]. rewrite <- (last_cons_default l x x), E, last_last.
    reflexivity.
Qed.

Lemma insert_pos_partition_point l element :
  insert_pos Behavior Comp l element = partition_point (sorts_at_or_below Behavior Comp element) l.
Proof.
  unfold insert_pos, sorts_at_or_below, lower_bound, upper_bound.
  destruct Behavior; reflexivity.
Qed.

Lemma insert_pos_end l element :
  insert_pos Behavior Comp l element = length l <->
  Forall (fun x => sorts_at_or_below Behavior Comp element x = true) l.
Proof.
  rewrite insert_pos_partition_point. apply partition_point_all.
Qed.

Hypothesis HComp : StrictWeakOrder Comp.

Lemma goes_after_not_after element x :
  sorts_at_or_below Behavior Comp element x = true -> not_after Comp x element.
Proof.
  unfold sorts_at_or_below, not_after.
  destruct Behavior; [apply (swo_asym HComp)|apply negb_true_iff].
Qed.

Lemma not_goes_after_not_after element x :
  sorts_at_or_below Behavior Comp element x = false -> not_after Comp element x.
Proof.
  unfold sorts_at_or_below, not_after.
  destruct Behavior; [trivial|].
  rewrite negb_false_iff. apply (swo_asym HComp).
Qed.

(** Going after is inherited downwards: whatever does not rank after an
    element that [element] goes after is itself gone after. *)
Lemma goes_after_down element x b :
  not_after Comp x b -> sorts_at_or_below Behavior Comp element b = true ->
  sorts_at_or_below Behavior Comp element x = true.
Proof.
  intros Hxb Hb. destruct (sorts_at_or_below Behavior Comp element x) eqn:E; [reflexivity|].
  exfalso. revert Hb E. unfold sorts_at_or_below.
  destruct Behavior.
  - intros Hb E.
    pose proof (not_after_trans HComp (E : not_after Comp element x) Hxb) as F.
    unfold not_after in F. congruence.
  - rewrite negb_true_iff, negb_false_iff. intros Hb E.
    pose proof (not_after_trans HComp Hxb (Hb : not_after Comp b element)) as F.
    unfold not_after in F. congruence.
Qed.

Lemma Sorted_not_after_last l b :
  Sorted (not_after Comp) (l ++ [b]) -> Forall (fun x => not_after Comp x b) (l ++ [b]).
Proof.
  intros Hs. apply (Sorted_strongly HComp) in Hs.
  apply StronglySorted_app_inv in Hs.
  destruct Hs as (_ & _ & H). apply Forall_app. split.
  - apply Forall_forall. intros x Hx. apply H; [exact Hx|left; reflexivity].
  - constructor; [|constructor]. apply (swo_irrefl HComp).
Qed.

Lemma insert_pos_end_bottom l b element :
  Sorted (not_after Comp) (l ++ [b]) ->
  sorts_at_or_below Behavior Comp element b = true ->
  insert_pos Behavior Comp (l ++ [b]) element = length (l ++ [b]).
Proof.
  intros Hs Hb. apply insert_pos_end.
  apply Sorted_not_after_last in Hs.
  revert Hs. apply Forall_impl. intros x Hx.
  exact (goes_after_down _ Hx Hb).
Qed.
End BottomFacts.

(** ** Instances used to run the model *)

Lemma Z_ltb_strict_weak_order : StrictWeakOrder Z.ltb.
Proof.
  split.
  - intros x. apply Z.ltb_irrefl.
  - intros x y z H1 H2. apply Z.ltb_lt in H1, H2. apply Z.ltb_lt. lia.
  - intros x y z H1 H2 H3 H4.
    apply Z.ltb_ge in H1, H2, H3, H4. split; apply Z.ltb_ge; lia.
Qed.

Lemma Z_gtb_strict_weak_order : StrictWeakOrder Z.gtb.
Proof.
  split.
  - intros x. rewrite Z.gtb_ltb. apply Z.ltb_irrefl.
  - intros x y z. rewrite !Z.gtb_ltb. intros H1 H2.
    apply Z.ltb_lt in H1, H2. apply Z.ltb_lt. lia.
  - intros x y z. rewrite !Z.gtb_ltb. intros H1 H2 H3 H4.
    apply Z.ltb_ge in H1, H2, H3, H4. split; apply Z.ltb_ge; lia.
Qed.

Lemma run_policy_null {T W : Type} (calls : list T) (w : W) :
  run_policy DisposalNullPolicy calls w = w.
Proof.
  unfold run_policy. induction calls as [|x calls IH]; simpl; [reflexivity|].
  exact IH.
Qed.

(** ** The result of [insert] *)

(** C10: whenever [insert(element)] returns false, the ranker after the
    call is the ranker before it: the new node was placed at the tail
    ([pos] is [ranking.end()]), it is the one evicted, and the disposal
    policy is called exactly once, on the rejected element. *)
Theorem insert_false_ranking_unchanged :
  forall (T : Type) (Behavior : SameValueBehavior) (Comp : T -> T -> bool)
         (element : T) (r r' : Ranker (T:=T)) (disposed : list T),
    insert Behavior Comp element r = (false, r', disposed) ->
    r' = r /\
    disposed = [element] /\
    TOP r <= size r /\
    insert_pos Behavior Comp (ranking r) element = length (ranking r) /\
    list_insert (insert_pos Behavior Comp (ranking r) element) element (ranking r)
    = ranking r ++ [element].
Proof.
  intros T Behavior Comp element r r' disposed E.
  pose proof (insert_cases Behavior Comp element r) as H.
  rewrite E in H. inversion H as [|Hge Hpos|]; subst.
  repeat split; try assumption.
  rewrite Hpos. apply list_insert_end.
Qed.

Lemma insert_false_ranking_unchanged_witness :
  insert AddAfterEqual Z.ltb 20%Z (mkRanker [5%Z] 1) = (false, mkRanker [5%Z] 1, [20%Z]) /\
  mkRanker [5%Z] 1 = mkRanker [5%Z] 1 /\ [20%Z] = [20%Z].
Proof.
  split; [reflexivity|].
  destruct (@insert_false_ranking_unchanged Z AddAfterEqual Z.ltb 20%Z
              (mkRanker [5%Z] 1) (mkRanker [5%Z] 1) [20%Z] eq_refl)
    as (H1 & H2 & _).
  split; assumption.
Defined.

(** C1: [insert(element)] returns true if and only if the node of
    [element] survives in the final sequence. It returns false exactly
    when the ranking was at capacity and the node was placed at the tail
    and evicted at once, which requires [element] to sort at or below the
    bottom under the tie-break rule (and, on a sorted ranking under a
    strict weak order, is implied by it). Below capacity [insert] returns
    true; with capacity zero it disposes the element and returns false. *)
Theorem insert_returns_whether_element_survives :
  forall (T : Type) (Behavior : SameValueBehavior) (Comp : T -> T -> bool)
         (element : T) (r : Ranker (T:=T)),
    let pos := insert_pos Behavior Comp (ranking r) element in
    let ranking1 := list_insert pos element (ranking r) in
    let success := fst (fst (insert Behavior Comp element r)) in
    let r' := snd (fst (insert Behavior Comp element r)) in
    let disposed := snd (insert Behavior Comp element r) in
    (* the new node is at [pos]; the final sequence is a prefix of the
       sequence after the insertion; true iff the node lies within it *)
    nth_error ranking1 pos = Some element /\
    ranking r' = firstn (length (ranking r')) ranking1 /\
    (success = true <-> pos < length (ranking r')) /\
    (~ In element (ranking r) ->
     (success = true <-> In element (ranking r'))) /\
    (* false exactly when rejected at the tail of a full ranking *)
    (success = false <->
     TOP r <= length (ranking r) /\ pos = length (ranking r)) /\
    (success = false ->
     r' = r /\ disposed = [element] /\ ranking1 = ranking r ++ [element]) /\
    (success = false ->
     forall b, bottom r = Some b ->
               sorts_at_or_below Behavior Comp element b = true) /\
    (StrictWeakOrder Comp -> sorted Comp r ->
     TOP r <= length (ranking r) ->
     (forall b, bottom r = Some b ->
                sorts_at_or_below Behavior Comp element b = true) ->
     success = false) /\
    (* below capacity; capacity zero *)
    (length (ranking r) < TOP r -> success = true /\ disposed = []) /\
    (TOP r = 0 -> length (ranking r) <= TOP r ->
     insert Behavior Comp element r = (false, r, [element])).
Proof.
  intros T Behavior Comp element r. cbv zeta.
  pose proof (insert_pos_le Behavior Comp (ranking r) element) as Hle.
  pose proof (nth_error_list_insert element (ranking r) Hle) as Hnth.
  assert (Hbot : insert_pos Behavior Comp (ranking r) element
                 = length (ranking r) ->
                 forall b, bottom r = Some b ->
                           sorts_at_or_below Behavior Comp element b = true).
  { intros Hpos b Hb. apply bottom_snoc in Hb. destruct Hb as [l0 Hb].
    apply insert_pos_end in Hpos. rewrite Hb, Forall_app in Hpos.
    destruct Hpos as [_ Hpos]. inversion Hpos; assumption. }
  assert (Hconv : StrictWeakOrder Comp -> sorted Comp r ->
                  (forall b, bottom r = Some b ->
                             sorts_at_or_below Behavior Comp element b = true) ->
                  insert_pos Behavior Comp (ranking r) element
                  = length (ranking r)).
  { intros HC Hs Hb. unfold sorted in Hs. apply is_sorted_Sorted in Hs.
    destruct (snoc_cases (ranking r)) as [E|[l0 [b E]]].
    - rewrite E. destruct Behavior; reflexivity.
    - rewrite E in Hs |- *. apply (insert_pos_end_bottom Behavior HC _ _ _ Hs).
      apply Hb, bottom_snoc. exists l0. exact E. }
  destruct (insert_cases Behavior Comp element r) as [Hlt|Hge Hpos|Hge Hpos];
    simpl fst; simpl snd; simpl ranking;
    set (pos := insert_pos Behavior Comp (ranking r) element) in *;
    set (ranking1 := list_insert pos element (ranking r)) in *.
  - (* room *)
    assert (Hlen : length ranking1 = S (length (ranking r)))
      by apply length_list_insert.
    repeat split; try (intros; discriminate || lia || reflexivity || assumption).
    + symmetry. apply firstn_all.
    + intros _. apply In_list_insert. left; reflexivity.
  - (* rejected at the tail *)
    assert (E1 : ranking1 = ranking r ++ [element])
      by (unfold ranking1; rewrite Hpos; apply list_insert_end).
    repeat split; try (intros; discriminate || lia || reflexivity || assumption).
    + rewrite E1, firstn_app, firstn_all, Nat.sub_diag. simpl.
      symmetry. apply app_nil_r.
    + intros F. exfalso. apply H. exact F.
    + intros _. exact (Hbot Hpos).
  - (* the old bottom is evicted *)
    assert (Hlen : length (list_insert pos element (removelast (ranking r)))
                   = length (ranking r)).
    { rewrite length_list_insert, length_removelast. lia. }
    rewrite Hlen.
    repeat split; try (intros; discriminate || lia || reflexivity || assumption).
    + rewrite <- removelast_list_insert by exact Hpos. fold ranking1.
      rewrite removelast_firstn_len. unfold ranking1.
      rewrite length_list_insert. reflexivity.
    + intros _. apply In_list_insert. left; reflexivity.
    + intros HC Hs _ Hb. specialize (Hconv HC Hs Hb). lia.
Qed.

Lemma insert_returns_whether_element_survives_witness :
  fst (fst (insert AddAfterEqual Z.ltb 20%Z (mkRanker [5%Z] 1))) = false /\
  insert AddBeforeEqual Z.ltb 7%Z (new 0) = (false, new 0, [7%Z]).
Proof.
  split.
  - pose proof (@insert_returns_whether_element_survives Z AddAfterEqual
                  Z.ltb 20%Z (mkRanker [5%Z] 1)) as H.
    cbv zeta in H.
    destruct H as (_ & _ & _ & _ & _ & _ & _ & H & _).
    apply H.
    + exact Z_ltb_strict_weak_order.
    + reflexivity.
    + simpl. lia.
    + intros b Hb. injection Hb as <-. reflexivity.
  - pose proof (@insert_returns_whether_element_survives Z AddBeforeEqual
                  Z.ltb 7%Z (new 0)) as H.
    cbv zeta in H.
    destruct H as (_ & _ & _ & _ & _ & _ & _ & _ & _ & H).
    apply H; simpl; [reflexivity|lia].
Defined.

(** ** Invariants of the operations *)

Section StepFacts.
Context {T : Type}.
Variable Behavior : SameValueBehavior.
Variable Comp : T -> T -> bool.
Variable eqb : T -> T -> bool.
Implicit Types (l : list T) (r : Ranker (T:=T)) (o : Op (T:=T)).

Lemma find_le l (v : T) : find eqb l v <= length l.
Proof.
  induction l as [|x l IH]; simpl; [lia|]. destruct (eqb x v); simpl; lia.
Qed.

(** What [std::find] returns: the first match splits the list. *)
Lemma find_split l (v x : T) :
  nth_error l (find eqb l v) = Some x ->
  l = firstn (find eqb l v) l ++ x :: skipn (S (find eqb l v)) l /\
  Forall (fun y => eqb y v = false) (firstn (find eqb l v) l) /\
  eqb x v = true.
Proof.
  induction l as [|y l IH]; simpl; [discriminate|].
  destruct (eqb y v) eqn:E; simpl.
  - intros [= <-]. repeat split; [constructor|exact E].
  - intros H. destruct (IH H) as (H1 & H2 & H3).
    repeat split; [f_equal; exact H1|constructor; assumption|exact H3].
Qed.

Lemma find_end l (v : T) :
  find eqb l v = length l <-> Forall (fun y => eqb y v = false) l.
Proof.
  induction l as [|y l IH]; simpl; [split; [constructor|reflexivity]|].
  destruct (eqb y v) eqn:E; split.
  - discriminate.
  - intros H. inversion H; congruence.
  - intros [= H]. constructor; [exact E|apply IH, H].
  - intros H. inversion H; subst. f_equal. apply IH. assumption.
Qed.

(** Every removal leaves a subsequence. *)
Lemma step_removal_subseq o r r' d :
  added o = [] -> step Behavior Comp eqb o r = Some (r', d) ->
  subseq (ranking r') (ranking r) /\ TOP r' = TOP r.
Proof.
  destruct o as [e|e|e|e|e|]; simpl; try discriminate; intros _.
  - unfold remove_first.
    destruct (nth_error (ranking r) (find eqb (ranking r) e)); [|discriminate].
    intros [= <- <-]. split; [apply subseq_list_erase|reflexivity].
  - intros [= <- <-]. split; [apply subseq_filter|reflexivity].
  - unfold remove_first_ptr.
    destruct (find eqb (ranking r) e <? length (ranking r)); [|discriminate].
    intros [= <- <-]. split; [apply subseq_list_erase|reflexivity].
  - intros [= <- <-]. split; [apply subseq_filter|reflexivity].
  - intros [= <- <-]. split; [apply subseq_nil_l|reflexivity].
Qed.

Lemma insert_size_TOP element r :
  size r <= TOP r ->
  size (snd (fst (insert Behavior Comp element r))) <= TOP r /\
  TOP (snd (fst (insert Behavior Comp element r))) = TOP r.
Proof.
  unfold size. intros Hinv.
  destruct (insert_cases Behavior Comp element r) as [Hlt|Hge Hpos|Hge Hpos];
    simpl.
  - rewrite length_list_insert. split; [lia|reflexivity].
  - split; [lia|reflexivity].
  - rewrite length_list_insert, length_removelast. split; [lia|reflexivity].
Qed.

Lemma step_size_TOP o r r' d :
  size r <= TOP r -> step Behavior Comp eqb o r = Some (r', d) ->
  size r' <= TOP r' /\ TOP r' = TOP r.
Proof.
  intros Hinv Hstep. destruct (added o) as [|a ?] eqn:Ha.
  - destruct (step_removal_subseq _ _ Ha Hstep) as [Hsub HT].
    split; [|exact HT]. rewrite HT. apply subseq_length in Hsub.
    unfold size in *. lia.
  - destruct o as [e| | | | |]; try discriminate. simpl in Hstep.
    pose proof (insert_size_TOP e r Hinv) as H.
    destruct (insert Behavior Comp e r) as [[ok r1] d1].
    injection Hstep as <- <-. simpl in H. destruct H as [H1 H2].
    split; [rewrite H2; exact H1|exact H2].
Qed.

(** A property kept by every completed call holds after every completed
    sequence of calls. *)
Lemma run_invariant (P : Ranker (T:=T) -> Prop) :
  (forall o r r' d, P r -> step Behavior Comp eqb o r = Some (r', d) -> P r') ->
  forall ops r r' d,
    P r -> run Behavior Comp eqb ops r = Some (r', d) -> P r'.
Proof.
  intros Hstep. induction ops as [|o ops IH]; simpl; intros r r' d HP.
  - intros [= <- _]. exact HP.
  - destruct (step Behavior Comp eqb o r) as [[r1 d1]|] eqn:E1; [|discriminate].
    destruct (run Behavior Comp eqb ops r1) as [[r2 d2]|] eqn:E2; [|discriminate].
    intros [= <- _]. exact (IH _ _ _ (Hstep _ _ _ _ HP E1) E2).
Qed.

Hypothesis HComp : StrictWeakOrder Comp.

Lemma insert_sorted element r :
  sorted Comp r -> sorted Comp (snd (fst (insert Behavior Comp element r))).
Proof.
  unfold sorted. rewrite !is_sorted_Sorted. intros Hs.
  assert (Hins : Sorted (not_after Comp)
                   (list_insert (insert_pos Behavior Comp (ranking r) element)
                      element (ranking r))).
  { rewrite insert_pos_partition_point.
    apply Sorted_insert_partition_point; [| |exact Hs]; intros x.
    - apply (goes_after_not_after Behavior HComp).
    - apply (not_goes_after_not_after Behavior HComp). }
  destruct (insert_cases Behavior Comp element r) as [Hlt|Hge Hpos|Hge Hpos];
    simpl.
  - exact Hins.
  - exact Hs.
  - rewrite <- removelast_list_insert by exact Hpos.
    apply Sorted_removelast, Hins.
Qed.

Lemma step_sorted o r r' d :
  sorted Comp r -> step Behavior Comp eqb o r = Some (r', d) -> sorted Comp r'.
Proof.
  intros Hs Hstep. destruct (added o) as [|a ?] eqn:Ha.
  - destruct (step_removal_subseq _ _ Ha Hstep) as [Hsub _].
    unfold sorted in *. rewrite is_sorted_Sorted in *.
    exact (Sorted_subseq HComp Hsub Hs).
  - destruct o as [e| | | | |]; try discriminate. simpl in Hstep.
    pose proof (insert_sorted e Hs) as H.
    destruct (insert Behavior Comp e r) as [[ok r1] d1].
    injection Hstep as <- <-. exact H.
Qed.
End StepFacts.

Lemma StronglySorted_nth_error {T : Type} (R : T -> T -> Prop) (l : list T) :
  StronglySorted R l ->
  forall i j x y, i < j -> nth_error l i = Some x -> nth_error l j = Some y ->
                  R x y.
Proof.
  induction 1 as [|a l Hs IH Hf]; intros i j x y Hij Hi Hj.
  - destruct i; discriminate.
  - destruct j as [|j]; [lia|]. simpl in Hj. destruct i as [|i].
    + injection Hi as <-. rewrite Forall_forall in Hf.
      apply Hf. exact (nth_error_In _ _ Hj).
    + simpl in Hi. apply (IH i j); [lia|assumption|assumption].
Qed.

(** C2 (invariant I1): every completed operation keeps
    [size() <= TOP] and the capacity itself, so after every completed
    sequence of operations on a new ranking of capacity [C] the size is at
    most [C]. Inside [insert] the list has one element more than before,
    hence at most [C + 1]; when the ranking was full, exactly one element,
    the last one, is erased and disposed. *)
Theorem size_never_exceeds_capacity :
  forall (T : Type) (Behavior : SameValueBehavior) (Comp eqb : T -> T -> bool),
    (forall o r r' d,
        size r <= TOP r -> step Behavior Comp eqb o r = Some (r', d) ->
        size r' <= TOP r' /\ TOP r' = TOP r) /\
    (forall C ops r d,
        run Behavior Comp eqb ops (new C) = Some (r, d) ->
        size r <= C /\ TOP r = C) /\
    (forall element r,
        size r <= TOP r ->
        let ranking1 :=
          list_insert (insert_pos Behavior Comp (ranking r) element)
            element (ranking r) in
        let r' := snd (fst (insert Behavior Comp element r)) in
        let d := snd (insert Behavior Comp element r) in
        length ranking1 = S (size r) /\
        length ranking1 <= S (TOP r) /\
        (size r < TOP r -> ranking r' = ranking1 /\ d = []) /\
        (TOP r <= size r ->
         ranking1 = ranking r' ++ d /\ length d = 1 /\ size r' = TOP r)).
Proof.
  intros T Behavior Comp eqb. split; [|split].
  - intros o r r' d. apply step_size_TOP.
  - intros C ops r d Hrun.
    cut (size r <= TOP r /\ TOP r = C); [intros [H1 H2]; split; congruence|].
    refine (@run_invariant T Behavior Comp eqb
              (fun r => size r <= TOP r /\ TOP r = C) _ ops (new C) r d _ Hrun).
    + intros o r0 r1 d0 [H1 H2] Hstep.
      destruct (@step_size_TOP T Behavior Comp eqb o r0 r1 d0 H1 Hstep) as [H3 H4].
      split; [exact H3|congruence].
    + split; [apply Nat.le_0_l|reflexivity].
  - intros element r Hinv. cbv zeta. unfold size in *.
    rewrite length_list_insert.
    split; [reflexivity|]. split; [lia|].
    destruct (insert_cases Behavior Comp element r) as [Hlt|Hge Hpos|Hge Hpos];
      simpl; (split; [intros; try lia|intros; try lia]).
    + split; reflexivity.
    + rewrite Hpos, list_insert_end. repeat split. lia.
    + rewrite length_list_insert, length_removelast.
      rewrite <- removelast_list_insert by exact Hpos.
      rewrite <- (last_list_insert element element (ranking r) Hpos).
      repeat split; [apply list_insert_split|lia].
Qed.

Lemma size_never_exceeds_capacity_witness :
  run AddAfterEqual Z.ltb Z.eqb
    [OpInsert 5%Z; OpInsert 3%Z; OpInsert 8%Z; OpInsert 1%Z; OpRemoveFirst 3%Z]
    (new 3)
  = Some (mkRanker [1%Z; 5%Z] 3, [8%Z; 3%Z]) /\
  size (mkRanker [1%Z; 5%Z] 3) <= 3.
Proof.
  split; [reflexivity|].
  destruct (@size_never_exceeds_capacity Z AddAfterEqual Z.ltb Z.eqb)
    as (_ & H & _).
  exact (proj1 (H 3
                  [OpInsert 5%Z; OpInsert 3%Z; OpInsert 8%Z; OpInsert 1%Z;
                   OpRemoveFirst 3%Z]
                  (mkRanker [1%Z; 5%Z] 3) [8%Z; 3%Z] eq_refl)).
Defined.

(** C3 (invariant I2): under a strict weak order [Comp], every completed
    operation ([insert], both [remove_first], both [remove_all],
    [clear]) keeps the sequence sorted, so every ranking reached from a
    new one is sorted: read from top to bottom no element is less than
    its predecessor, nor than any element before it. With [Comp] the
    reverse order the same statement gives a non-increasing sequence. *)
Theorem sortedness_invariant :
  forall (T : Type) (Behavior : SameValueBehavior) (Comp eqb : T -> T -> bool),
    StrictWeakOrder Comp ->
    (forall o r r' d,
        sorted Comp r -> step Behavior Comp eqb o r = Some (r', d) ->
        sorted Comp r') /\
    (forall C ops r d,
        run Behavior Comp eqb ops (new C) = Some (r, d) -> sorted Comp r) /\
    (forall r,
        sorted Comp r ->
        forall i j x y,
          i < j -> nth_error (ranking r) i = Some x ->
          nth_error (ranking r) j = Some y -> Comp y x = false).
Proof.
  intros T Behavior Comp eqb HComp. split; [|split].
  - intros o r r' d. apply step_sorted. exact HComp.
  - intros C ops r d Hrun.
    refine (@run_invariant T Behavior Comp eqb (sorted Comp) _
              ops (new C) r d _ Hrun).
    + intros o r0 r1 d0. apply step_sorted. exact HComp.
    + reflexivity.
  - intros r Hs. unfold sorted in Hs.
    apply is_sorted_Sorted, (Sorted_strongly HComp) in Hs.
    exact (StronglySorted_nth_error Hs).
Qed.

Lemma sortedness_invariant_witness :
  run AddBeforeEqual Z.gtb Z.eqb
    [OpInsert 5%Z; OpInsert 3%Z; OpInsert 8%Z; OpInsert 9%Z; OpRemoveAll 5%Z;
     OpInsert 8%Z]
    (new 3)
  = Some (mkRanker [9%Z; 8%Z; 8%Z] 3, [3%Z; 5%Z]) /\
  sorted Z.gtb (mkRanker [9%Z; 8%Z; 8%Z] 3).
Proof.
  split; [reflexivity|].
  destruct (@sortedness_invariant Z AddBeforeEqual Z.gtb Z.eqb
              Z_gtb_strict_weak_order) as (_ & H & _).
  exact (H 3
           [OpInsert 5%Z; OpInsert 3%Z; OpInsert 8%Z; OpInsert 9%Z;
            OpRemoveAll 5%Z; OpInsert 8%Z]
           (mkRanker [9%Z; 8%Z; 8%Z] 3) [3%Z; 5%Z] eq_refl).
Defined.

(** ** Equal-ranked elements *)

Lemma less_by_value_strict_weak_order : StrictWeakOrder less_by_value.
Proof.
  unfold less_by_value. split.
  - intros x. apply Z.ltb_irrefl.
  - intros x y z H1 H2. apply Z.ltb_lt in H1, H2. apply Z.ltb_lt. lia.
  - intros x y z H1 H2 H3 H4.
    apply Z.ltb_ge in H1, H2, H3, H4. split; apply Z.ltb_ge; lia.
Qed.

(** The scenario of C4 as the specification words it: the third equal
    insertion would return true and dispose the first 4. *)
Lemma third_equal_insert_counterexample :
  ~ (fst (fst (insert AddAfterEqual less_by_value (3, 4%Z)
                 (snd (insert_all AddAfterEqual less_by_value
                         [(1, 4%Z); (2, 4%Z)] (new 2))))) = true /\
     snd (insert AddAfterEqual less_by_value (3, 4%Z)
            (snd (insert_all AddAfterEqual less_by_value
                    [(1, 4%Z); (2, 4%Z)] (new 2)))) = [(1, 4%Z)]).
Proof.
  intros [H _]. vm_compute in H. discriminate H.
Qed.

(** C4, amended: with capacity 2, ascending order and [AddAfterEqual],
    inserting 4 and 4 returns true twice and yields [4, 4]; a third 4 is
    placed after its equals, at the tail of a full ranking, so it is the
    third 4 that is evicted and disposed, the first two stay, and that
    call returns false. *)
Theorem third_equal_insert_is_rejected :
  insert_all AddAfterEqual less_by_value [(1, 4%Z); (2, 4%Z)] (new 2)
  = ([true; true], mkRanker [(1, 4%Z); (2, 4%Z)] 2) /\
  insert AddAfterEqual less_by_value (3, 4%Z)
    (mkRanker [(1, 4%Z); (2, 4%Z)] 2)
  = (false, mkRanker [(1, 4%Z); (2, 4%Z)] 2, [(3, 4%Z)]) /\
  insert_all AddAfterEqual Z.ltb [4%Z; 4%Z; 4%Z] (new 2)
  = ([true; true; false], mkRanker [4%Z; 4%Z] 2).
Proof.
  repeat split.
Qed.

Section PrecedesFacts.
Context {T : Type}.
Implicit Types (l : list T) (x y e : T).

Lemma In_firstn x n l : In x (firstn n l) -> In x l.
Proof.
  intros H. rewrite <- (firstn_skipn n l). apply in_or_app. left; exact H.
Qed.

Lemma In_skipn x n l : In x (skipn n l) -> In x l.
Proof.
  intros H. rewrite <- (firstn_skipn n l). apply in_or_app. right; exact H.
Qed.

Lemma precedes_app_l l l2 x y : precedes l x y -> precedes (l ++ l2) x y.
Proof.
  induction l as [|z l IH]; simpl; [intros []|].
  intros [[E H]|H]; [left|right; exact (IH H)].
  split; [exact E|apply in_or_app; left; exact H].
Qed.

Lemma precedes_firstn n l x y : precedes (firstn n l) x y -> precedes l x y.
Proof.
  intros H. rewrite <- (firstn_skipn n l). apply precedes_app_l, H.
Qed.

Lemma precedes_snoc l x y : In x l -> precedes (l ++ [y]) x y.
Proof.
  induction l as [|z l IH]; simpl; [intros []|].
  intros [E|H]; [left|right; exact (IH H)].
  split; [exact E|apply in_or_app; right; left; reflexivity].
Qed.

Lemma precedes_middle l1 l2 e x y :
  precedes (l1 ++ e :: l2) x y ->
  precedes (l1 ++ l2) x y \/ (In x l1 /\ y = e) \/ (x = e /\ In y l2).
Proof.
  induction l1 as [|z l1 IH]; simpl.
  - intros [[E H]|H]; [right; right; split; congruence|left; exact H].
  - intros [[E H]|H].
    + apply in_app_or in H. destruct H as [H|[H|H]].
      * left; left. split; [exact E|apply in_or_app; left; exact H].
      * right; left. split; [left; exact E|congruence].
      * left; left. split; [exact E|apply in_or_app; right; exact H].
    + destruct (IH H) as [H1|[[H1 H2]|H1]].
      * left; right; exact H1.
      * right; left. split; [right; exact H1|exact H2].
      * right; right; exact H1.
Qed.

Lemma precedes_list_insert pos l e x y :
  precedes (list_insert pos e l) x y ->
  precedes l x y \/ (In x (firstn pos l) /\ y = e)
  \/ (x = e /\ In y (skipn pos l)).
Proof.
  unfold list_insert. intros H. apply precedes_middle in H.
  rewrite firstn_skipn in H. exact H.
Qed.

Lemma precedes_split l x y :
  precedes l x y <-> exists a b c, l = a ++ x :: b ++ y :: c.
Proof.
  split.
  - induction l as [|z l IH]; simpl; [intros []|].
    intros [[E H]|H].
    + apply in_split in H. destruct H as (b & c & H).
      exists [], b, c. simpl. congruence.
    + destruct (IH H) as (a & b & c & E).
      exists (z :: a), b, c. simpl. congruence.
  - intros (a & b & c & E). subst l.
    induction a as [|z a IH]; simpl; [left|right; exact IH].
    split; [reflexivity|apply in_or_app; right; left; reflexivity].
Qed.
End PrecedesFacts.

Section TieBreakFacts.
Context {T : Type}.
Variable Behavior : SameValueBehavior.
Variable Comp : T -> T -> bool.
Implicit Types (l es : list T) (r : Ranker (T:=T)) (x y e : T).

Lemma snd_insert_all_cons e es r :
  snd (insert_all Behavior Comp (e :: es) r)
  = snd (insert_all Behavior Comp es (snd (fst (insert Behavior Comp e r)))).
Proof.
  simpl. destruct (insert Behavior Comp e r) as [[ok r1] d]. simpl.
  destruct (insert_all Behavior Comp es r1). reflexivity.
Qed.

Lemma snd_insert_all_snoc es e r :
  snd (insert_all Behavior Comp (es ++ [e]) r)
  = snd (fst (insert Behavior Comp e (snd (insert_all Behavior Comp es r)))).
Proof.
  revert r. induction es as [|a es IH]; intros r.
  - simpl. destruct (insert Behavior Comp e r) as [[ok r1] d]. reflexivity.
  - change ((a :: es) ++ [e]) with (a :: (es ++ [e])).
    rewrite !snd_insert_all_cons. apply IH.
Qed.

(** The final sequence is an initial part of the sequence right after
    [ranking.insert]. *)
Lemma insert_ranking_prefix e r :
  ranking (snd (fst (insert Behavior Comp e r)))
  = firstn (length (ranking (snd (fst (insert Behavior Comp e r)))))
      (list_insert (insert_pos Behavior Comp (ranking r) e) e (ranking r)).
Proof.
  destruct (insert_cases Behavior Comp e r) as [Hlt|Hge Hpos|Hge Hpos]; simpl.
  - symmetry. apply firstn_all.
  - rewrite Hpos, list_insert_end, firstn_app, firstn_all, Nat.sub_diag.
    simpl. symmetry. apply app_nil_r.
  - rewrite <- removelast_list_insert by exact Hpos.
    rewrite removelast_firstn_len, firstn_length_le; [reflexivity|].
    rewrite length_list_insert. lia.
Qed.

End TieBreakFacts.

Section StableFacts.
Context {T : Type}.
Variable Behavior : SameValueBehavior.
Variable Comp : T -> T -> bool.
Hypothesis HComp : StrictWeakOrder Comp.
Implicit Types (l es : list T) (r : Ranker (T:=T)) (x y e : T).

(** On a sorted list nothing behind the insertion point is gone after. *)
Lemma insert_pos_suffix l e :
  Sorted (not_after Comp) l ->
  Forall (fun x => sorts_at_or_below Behavior Comp e x = false)
    (skipn (insert_pos Behavior Comp l e) l).
Proof.
  rewrite insert_pos_partition_point. intros Hs.
  apply (Sorted_strongly HComp) in Hs.
  induction Hs as [|x l Hs IH Hf]; simpl; [constructor|].
  destruct (sorts_at_or_below Behavior Comp e x) eqn:E; simpl; [exact IH|].
  constructor; [exact E|].
  revert Hf. apply Forall_impl. intros z Hz.
  destruct (sorts_at_or_below Behavior Comp e z) eqn:Ez; [|reflexivity].
  rewrite (goes_after_down Behavior HComp e Hz Ez) in E. discriminate.
Qed.

(** On a sorted list the insertion point is the number of elements the
    new one goes after: the iterator every correct search returns. *)
Lemma insert_pos_count l e :
  Sorted (not_after Comp) l ->
  insert_pos Behavior Comp l e
  = length (filter (sorts_at_or_below Behavior Comp e) l).
Proof.
  intros Hs. pose proof (insert_pos_suffix e Hs) as Hsuf.
  pose proof (partition_point_prefix
                (sorts_at_or_below Behavior Comp e) l) as Hpre.
  rewrite <- insert_pos_partition_point in Hpre.
  pose proof (insert_pos_le Behavior Comp l e) as Hle.
  rewrite <- (firstn_skipn (insert_pos Behavior Comp l e) l) at 2.
  rewrite filter_app, length_app.
  rewrite (filter_all _ _ (proj1 (Forall_forall _ _) Hpre)).
  replace (filter (sorts_at_or_below Behavior Comp e)
             (skipn (insert_pos Behavior Comp l e) l)) with (@nil T).
  - rewrite length_firstn. simpl. lia.
  - symmetry. induction Hsuf as [|x s Hx _ IH]; simpl; [reflexivity|].
    rewrite Hx. exact IH.
Qed.

Lemma equiv_not_below e x :
  equiv Comp e x = true -> Comp e x = false /\ Comp x e = false.
Proof.
  unfold equiv. rewrite andb_true_iff, !negb_true_iff. trivial.
Qed.

(** Equal-ranked elements of a sorted list are contiguous. *)
Lemma equal_ranked_contiguous a x b y c :
  Sorted (not_after Comp) (a ++ x :: b ++ y :: c) ->
  equiv Comp x y = true ->
  Forall (fun z => equiv Comp x z = true) b.
Proof.
  intros Hs Hxy. apply (Sorted_strongly HComp) in Hs.
  apply StronglySorted_app_inv in Hs. destruct Hs as (_ & Hs & _).
  apply StronglySorted_inv in Hs. destruct Hs as [Hs Hf].
  apply StronglySorted_app_inv in Hs. destruct Hs as (_ & _ & Hby).
  rewrite Forall_app in Hf. destruct Hf as [Hf _].
  apply equiv_not_below in Hxy. destruct Hxy as [Hxy Hyx].
  apply Forall_forall. intros z Hz.
  rewrite Forall_forall in Hf. pose proof (Hf z Hz) as Hxz.
  pose proof (Hby z y Hz (or_introl eq_refl)) as Hzy.
  pose proof (not_after_trans HComp Hzy (Hxy : not_after Comp y x)) as Hzx.
  unfold not_after in Hxz, Hzx. unfold equiv. rewrite Hxz, Hzx. reflexivity.
Qed.

Lemma insert_all_stable C es :
  let l := ranking (snd (insert_all Behavior Comp es (new C))) in
  Sorted (not_after Comp) l /\
  (forall x, In x l -> In x es) /\
  (forall x y, precedes l x y -> equiv Comp x y = true ->
               insertion_ordered Behavior es x y).
Proof.
  induction es as [|e es IH] using rev_ind; cbv zeta.
  - simpl. split; [constructor|]. split; [intros x []|intros x y []].
  - rewrite snd_insert_all_snoc.
    set (r1 := snd (insert_all Behavior Comp es (new C))) in *.
    cbv zeta in IH. destruct IH as (Hs & Hin & Hord).
    assert (Hin' : forall x,
               In x (list_insert (insert_pos Behavior Comp (ranking r1) e) e
                       (ranking r1)) -> In x (es ++ [e])).
    { intros x Hx. apply In_list_insert in Hx. apply in_or_app.
      destruct Hx as [->|Hx]; [right; left; reflexivity|left; auto]. }
    split; [|split].
    + apply is_sorted_Sorted. apply (insert_sorted Behavior HComp).
      apply is_sorted_Sorted. exact Hs.
    + intros x Hx. rewrite insert_ranking_prefix in Hx.
      apply In_firstn in Hx. auto.
    + intros x y Hp Hxy. rewrite insert_ranking_prefix in Hp.
      apply precedes_firstn, precedes_list_insert in Hp.
      pose proof (partition_point_prefix
                    (sorts_at_or_below Behavior Comp e) (ranking r1)) as Hpre.
      rewrite <- insert_pos_partition_point in Hpre.
      pose proof (insert_pos_suffix e Hs) as Hsuf.
      rewrite Forall_forall in Hpre, Hsuf.
      pose proof (equiv_not_below _ _ Hxy) as Hnb.
      destruct Hp as [Hp|[[Hx ->]|[-> Hy]]].
      * specialize (Hord x y Hp Hxy). revert Hord.
        unfold insertion_ordered. destruct Behavior; apply precedes_app_l.
      * specialize (Hpre x Hx). apply In_firstn in Hx.
        revert Hpre. unfold insertion_ordered, sorts_at_or_below.
        destruct Behavior; intros Hpre.
        -- destruct Hnb; congruence.
        -- apply precedes_snoc. auto.
      * specialize (Hsuf y Hy). apply In_skipn in Hy.
        revert Hsuf. unfold insertion_ordered, sorts_at_or_below.
        destruct Behavior; intros Hsuf.
        -- apply precedes_snoc. auto.
        -- apply negb_false_iff in Hsuf. destruct Hnb; congruence.
Qed.
End StableFacts.

(** X16 (invariant I3 for rankings built by [insert]). Let [Comp] be a
    strict weak order and the ranking be built from a new ranker of any
    capacity by the calls [insert(e)] for [e] in [es], whatever the
    elements. Two equal-ranked elements of the ranking stand in the order
    of their insertion with [AddAfterEqual] and in the reverse order with
    [AddBeforeEqual], and everything between two equal-ranked elements is
    equal-ranked with them: equals are contiguous. *)
Theorem equal_ranked_stay_ordered_and_contiguous :
  forall (T : Type) (Behavior : SameValueBehavior) (Comp : T -> T -> bool)
         (C : nat) (es : list T),
    StrictWeakOrder Comp ->
    (forall x y,
        precedes (ranking (snd (insert_all Behavior Comp es (new C)))) x y ->
        equiv Comp x y = true ->
        insertion_ordered Behavior es x y) /\
    (forall a x b y c,
        ranking (snd (insert_all Behavior Comp es (new C)))
        = a ++ x :: b ++ y :: c ->
        equiv Comp x y = true ->
        Forall (fun z => equiv Comp x z = true) b).
Proof.
  intros T Behavior Comp C es HComp.
  destruct (insert_all_stable Behavior HComp C es) as (Hs & _ & Hord).
  split; [exact Hord|].
  intros a x b y c E. rewrite E in Hs.
  exact (equal_ranked_contiguous HComp a x b y c Hs).
Qed.

Lemma equal_ranked_stay_ordered_and_contiguous_witness :
  ranking (snd (insert_all AddBeforeEqual less_by_value
                  [(1, 4%Z); (2, 7%Z); (3, 4%Z); (4, 4%Z); (5, 1%Z)]
                  (new 4)))
  = [(5, 1%Z)] ++ (4, 4%Z) :: [(3, 4%Z)] ++ (1, 4%Z) :: [] /\
  Forall (fun z => equiv less_by_value (4, 4%Z) z = true) [(3, 4%Z)] /\
  insertion_ordered AddBeforeEqual
    [(1, 4%Z); (2, 7%Z); (3, 4%Z); (4, 4%Z); (5, 1%Z)] (4, 4%Z) (1, 4%Z).
Proof.
  destruct (@equal_ranked_stay_ordered_and_contiguous (nat * Z)
              AddBeforeEqual less_by_value 4
              [(1, 4%Z); (2, 7%Z); (3, 4%Z); (4, 4%Z); (5, 1%Z)]
              less_by_value_strict_weak_order) as [Hord Hcont].
  split; [reflexivity|]. split.
  - exact (Hcont [(5, 1%Z)] (4, 4%Z) [(3, 4%Z)] (1, 4%Z) [] eq_refl eq_refl).
  - apply Hord; [|reflexivity]. simpl. right. left.
    split; [reflexivity|]. right. left. reflexivity.
Defined.

(** ** Removal and disposal *)

Section DisposalFacts.
Context {T : Type}.
Variable Behavior : SameValueBehavior.
Variable Comp : T -> T -> bool.
Variable eqb : T -> T -> bool.
Implicit Types (l : list T) (r : Ranker (T:=T)) (o : Op (T:=T)) (x y e : T).

Lemma Permutation_filter_negb (p : T -> bool) l :
  Permutation (filter p l ++ filter (fun x => negb (p x)) l) l.
Proof.
  induction l as [|x l IH]; simpl; [constructor|].
  destruct (p x); simpl.
  - constructor. exact IH.
  - symmetry. apply Permutation_cons_app. symmetry. exact IH.
Qed.

Lemma remove_first_Some element r r' d :
  remove_first eqb element r = Some (r', d) ->
  exists l1 x l2,
    ranking r = l1 ++ x :: l2 /\
    Forall (fun y => eqb y element = false) l1 /\
    eqb x element = true /\
    ranking r' = l1 ++ l2 /\ d = [x] /\ TOP r' = TOP r.
Proof.
  unfold remove_first.
  destruct (nth_error (ranking r) (find eqb (ranking r) element)) as [x|] eqn:E;
    [|discriminate].
  intros [= <- <-]. destruct (find_split eqb _ _ E) as (H1 & H2 & H3).
  exists (firstn (find eqb (ranking r) element) (ranking r)), x,
    (skipn (S (find eqb (ranking r) element)) (ranking r)).
  repeat split; assumption.
Qed.

Lemma remove_first_None element r :
  remove_first eqb element r = None <->
  Forall (fun y => eqb y element = false) (ranking r).
Proof.
  unfold remove_first. rewrite <- find_end.
  pose proof (find_le eqb (ranking r) element) as Hle.
  destruct (nth_error (ranking r) (find eqb (ranking r) element)) as [x|] eqn:E.
  - split; [discriminate|]. intros F.
    assert (Hn : nth_error (ranking r) (find eqb (ranking r) element) <> None)
      by congruence.
    apply nth_error_Some in Hn. lia.
  - split; [|reflexivity]. intros _. apply nth_error_None in E. lia.
Qed.

Lemma remove_first_ptr_Some element r r' d :
  remove_first_ptr eqb element r = Some (r', d) ->
  exists l1 x l2,
    ranking r = l1 ++ x :: l2 /\
    Forall (fun y => eqb y element = false) l1 /\
    eqb x element = true /\
    ranking r' = l1 ++ l2 /\ d = [element] /\ TOP r' = TOP r.
Proof.
  unfold remove_first_ptr.
  destruct (Nat.ltb_spec (find eqb (ranking r) element) (length (ranking r)))
    as [Hlt|]; [|discriminate].
  intros [= <- <-].
  destruct (nth_error (ranking r) (find eqb (ranking r) element)) as [x|] eqn:E.
  - destruct (find_split eqb _ _ E) as (H1 & H2 & H3).
    exists (firstn (find eqb (ranking r) element) (ranking r)), x,
      (skipn (S (find eqb (ranking r) element)) (ranking r)).
    repeat split; assumption.
  - apply nth_error_None in E. lia.
Qed.

Lemma insert_conservation element r :
  Permutation
    (snd (insert Behavior Comp element r)
       ++ ranking (snd (fst (insert Behavior Comp element r))))
    (ranking r ++ [element]).
Proof.
  rewrite <- Permutation_cons_append.
  destruct (insert_cases Behavior Comp element r) as [Hlt|Hge Hpos|Hge Hpos];
    simpl.
  - apply Permutation_list_insert.
  - reflexivity.
  - rewrite Permutation_list_insert, perm_swap. constructor.
    rewrite Permutation_cons_append.
    rewrite <- app_removelast_last; [reflexivity|].
    intros E. rewrite E in Hpos. simpl in Hpos. lia.
Qed.

Hypothesis eqb_sym : forall x y, eqb x y = eqb y x.

(** A call that compares by value disposes what it takes out, no more
    and no less. *)
Lemma step_conservation o r r' d :
  by_value o = true -> step Behavior Comp eqb o r = Some (r', d) ->
  Permutation (d ++ ranking r') (ranking r ++ added o).
Proof.
  destruct o as [e|e|e|e|e|]; simpl; try discriminate; intros _;
    rewrite ?app_nil_r.
  - pose proof (insert_conservation e r) as H.
    destruct (insert Behavior Comp e r) as [[ok r1] d1].
    intros [= <- <-]. exact H.
  - intros H. apply remove_first_Some in H.
    destruct H as (l1 & x & l2 & -> & _ & _ & -> & -> & _).
    simpl. apply Permutation_middle.
  - intros [= <- <-]. simpl. unfold list_remove.
    rewrite (filter_ext (fun x => negb (eqb x e)) (fun x => negb (eqb e x)))
      by (intros x; rewrite eqb_sym; reflexivity).
    apply Permutation_filter_negb.
  - intros [= <- <-]. simpl. rewrite app_nil_r. reflexivity.
Qed.

Lemma run_conservation ops : forall r r' d,
  forallb by_value ops = true ->
  run Behavior Comp eqb ops r = Some (r', d) ->
  Permutation (d ++ ranking r') (ranking r ++ inserted ops).
Proof.
  induction ops as [|o ops IH]; simpl; intros r r' d Hv.
  - intros [= <- <-]. simpl. rewrite app_nil_r. reflexivity.
  - apply andb_true_iff in Hv. destruct Hv as [Ho Hv].
    destruct (step Behavior Comp eqb o r) as [[r1 d1]|] eqn:E1; [|discriminate].
    destruct (run Behavior Comp eqb ops r1) as [[r2 d2]|] eqn:E2; [|discriminate].
    intros [= <- <-].
    rewrite <- app_assoc, (IH _ _ _ Hv E2), !app_assoc.
    apply Permutation_app_tail. exact (step_conservation _ _ Ho E1).
Qed.
End DisposalFacts.

Section ExactlyOnceFacts.
Context {T : Type}.
Implicit Types (l d : list T) (x : T).

Lemma NoDup_app_disjoint d l :
  NoDup (d ++ l) -> NoDup d /\ (forall x, In x d -> ~ In x l).
Proof.
  induction d as [|a d IH]; simpl; intros H.
  - split; [constructor|intros x []].
  - inversion H as [|? ? Ha Hd]; subst. destruct (IH Hd) as [H1 H2].
    split.
    + constructor; [|exact H1]. intros F. apply Ha, in_or_app. left; exact F.
    + intros x [<-|Hx]; [|exact (H2 x Hx)].
      intros F. apply Ha, in_or_app. right; exact F.
Qed.

(** With pairwise distinct elements, conservation says: whatever left was
    disposed exactly once, and nothing disposed is still held. *)
Lemma conservation_exactly_once d l' l :
  Permutation (d ++ l') l -> NoDup l ->
  NoDup d /\
  (forall x, In x l -> ~ In x l' -> In x d) /\
  (forall x, In x d -> ~ In x l').
Proof.
  intros Hp Hn.
  apply (Permutation_NoDup (Permutation_sym Hp)) in Hn.
  destruct (NoDup_app_disjoint _ _ Hn) as [H1 H2].
  split; [exact H1|]. split; [|exact H2].
  intros x Hx Hnx. apply (Permutation_in _ (Permutation_sym Hp)) in Hx.
  apply in_app_or in Hx. destruct Hx as [Hx|Hx]; [exact Hx|contradiction].
Qed.
End ExactlyOnceFacts.

Lemma step_ptr_exactly_once {T : Type} (Behavior : SameValueBehavior)
  (Comp eqb : T -> T -> bool) (o : Op (T:=T)) (r r' : Ranker (T:=T))
  (d : list T) :
  (forall x y, eqb x y = true <-> x = y) ->
  by_value o = false ->
  NoDup (ranking r) ->
  step Behavior Comp eqb o r = Some (r', d) ->
  NoDup d /\
  (forall x, In x (ranking r) -> ~ In x (ranking r') -> In x d) /\
  (forall x, In x d -> ~ In x (ranking r')).
Proof.
  intros Hid Ho Hn. destruct o as [e|e|e|e|e|]; try discriminate; simpl.
  - intros H. apply remove_first_ptr_Some in H.
    destruct H as (l1 & x & l2 & E & _ & Hx & -> & -> & _).
    apply Hid in Hx. subst x. apply conservation_exactly_once; [|exact Hn].
    rewrite E. simpl. apply Permutation_middle.
  - intros [= <- <-]. simpl. unfold list_remove.
    split; [repeat constructor; intros []|]. split.
    + intros x Hx Hnx. left. symmetry. apply Hid.
      destruct (eqb x e) eqn:E; [reflexivity|].
      exfalso. apply Hnx, filter_In. rewrite E. split; [exact Hx|reflexivity].
    + intros x [<-|[]] F. apply filter_In in F. destruct F as [_ F].
      rewrite (proj2 (Hid e e) eq_refl) in F. discriminate.
Qed.

(** X15 (disposal by the calls that compare by value). A completed
    [insert], [remove_first], [remove_all] by value or [clear] disposes
    exactly what it takes out of the ranking: the disposed elements
    together with the elements still held are the elements held before
    together with the inserted one. Over the whole life of a ranker that
    is only used through these calls, destructor included, the disposed
    elements are the inserted ones. When the element instances are
    pairwise distinct (for the overloads taking [T*]: when moreover
    [==] is identity of handles), every element that leaves is disposed
    exactly once and no disposed element is still in the sequence. An
    [insert] into a full ranking calls the policy once, on the evicted
    last element; below capacity it does not call it; [clear], and with
    it the destructor, calls it once on each element held. *)
Theorem disposal_completeness :
  forall (T : Type) (Behavior : SameValueBehavior) (Comp eqb : T -> T -> bool),
    (forall x y, eqb x y = eqb y x) ->
    (forall o r r' d,
        by_value o = true ->
        step Behavior Comp eqb o r = Some (r', d) ->
        Permutation (d ++ ranking r') (ranking r ++ added o)) /\
    (forall o r r' d,
        (by_value o = false -> forall x y, eqb x y = true <-> x = y) ->
        NoDup (ranking r ++ added o) ->
        step Behavior Comp eqb o r = Some (r', d) ->
        NoDup d /\
        (forall x, In x (ranking r ++ added o) -> ~ In x (ranking r') ->
                   In x d) /\
        (forall x, In x d -> ~ In x (ranking r'))) /\
    (forall C ops r d,
        forallb by_value ops = true ->
        run Behavior Comp eqb ops (new C) = Some (r, d) ->
        Permutation (d ++ destroy r) (inserted ops)) /\
    (forall element r,
        let ranking1 :=
          list_insert (insert_pos Behavior Comp (ranking r) element)
            element (ranking r) in
        let r' := snd (fst (insert Behavior Comp element r)) in
        let d := snd (insert Behavior Comp element r) in
        (size r < TOP r -> d = [] /\ ranking r' = ranking1) /\
        (TOP r <= size r ->
         d = [last ranking1 element] /\ ranking1 = ranking r' ++ d)) /\
    (forall r : Ranker (T:=T),
        snd (clear r) = ranking r /\ ranking (fst (clear r)) = [] /\
        destroy r = ranking r).
Proof.
  intros T Behavior Comp eqb Hsym. split; [|split; [|split; [|split]]].
  - intros o r r' d. apply step_conservation. exact Hsym.
  - intros o r r' d Hid Hn Hstep. destruct (by_value o) eqn:Ho.
    + apply conservation_exactly_once; [|exact Hn].
      exact (@step_conservation T Behavior Comp eqb Hsym o r r' d Ho Hstep).
    + assert (Ha : added o = []) by (destruct o; try discriminate; reflexivity).
      rewrite Ha, app_nil_r in *.
      exact (@step_ptr_exactly_once T Behavior Comp eqb o r r' d (Hid eq_refl) Ho Hn Hstep).
  - intros C ops r d Hv Hrun. unfold destroy. simpl.
    exact (@run_conservation T Behavior Comp eqb Hsym ops (new C) r d Hv Hrun).
  - intros element r. cbv zeta. unfold size.
    rewrite insert_unfold. cbv zeta.
    destruct (Nat.ltb_spec (length (ranking r)) (TOP r)) as [Hlt|Hge]; simpl;
      (split; [intros; try lia|intros; try lia]).
    + split; reflexivity.
    + split; [reflexivity|apply list_insert_split].
  - intros r. repeat split.
Qed.

Lemma equal_by_value_sym : forall x y, equal_by_value x y = equal_by_value y x.
Proof. intros x y. apply Z.eqb_sym. Qed.

Lemma disposal_completeness_witness :
  run AddAfterEqual less_by_value equal_by_value
    [OpInsert (1, 5%Z); OpInsert (2, 5%Z); OpInsert (3, 8%Z);
     OpInsert (4, 1%Z); OpRemoveAll (0, 5%Z); OpClear] (new 3)
  = Some (mkRanker [] 3, [(3, 8%Z); (1, 5%Z); (2, 5%Z); (4, 1%Z)]) /\
  Permutation
    ([(3, 8%Z); (1, 5%Z); (2, 5%Z); (4, 1%Z)] ++ destroy (mkRanker [] 3))
    [(1, 5%Z); (2, 5%Z); (3, 8%Z); (4, 1%Z)].
Proof.
  split; [reflexivity|].
  destruct (@disposal_completeness (nat * Z) AddAfterEqual less_by_value
              equal_by_value equal_by_value_sym) as (_ & _ & H & _).
  exact (H 3
           [OpInsert (1, 5%Z); OpInsert (2, 5%Z); OpInsert (3, 8%Z);
            OpInsert (4, 1%Z); OpRemoveAll (0, 5%Z); OpClear]
           (mkRanker [] 3) [(3, 8%Z); (1, 5%Z); (2, 5%Z); (4, 1%Z)]
           eq_refl eq_refl).
Defined.





(** C8: [remove_first(element)] by value. If some element equal to
    [element] under [==] is present, the call removes the first such
    element of the sequence, disposes that element, and leaves every
    other element in place. If none is present, [std::find] returns
    [ranking.end()], which the body dereferences: the call has no
    defined result, and this happens in no other case. *)
Theorem remove_first_removes_first_equal :
  forall (T : Type) (eqb : T -> T -> bool) (element : T) (r : Ranker (T:=T)),
    ((exists x, In x (ranking r) /\ eqb x element = true) ->
     exists l1 x l2,
       ranking r = l1 ++ x :: l2 /\
       Forall (fun y => eqb y element = false) l1 /\
       eqb x element = true /\
       remove_first eqb element r = Some (mkRanker (l1 ++ l2) (TOP r), [x])) /\
    (remove_first eqb element r = None <->
     ~ exists x, In x (ranking r) /\ eqb x element = true).
Proof.
  intros T eqb element r.
  assert (Hnone : remove_first eqb element r = None <->
                  ~ exists x, In x (ranking r) /\ eqb x element = true).
  { rewrite remove_first_None, Forall_forall. split.
    - intros H [x [Hx E]]. rewrite (H x Hx) in E. discriminate.
    - intros H x Hx. destruct (eqb x element) eqn:E; [|reflexivity].
      exfalso. apply H. exists x. split; assumption. }
  split; [|exact Hnone].
  intros Hex. destruct (remove_first eqb element r) as [[r' d]|] eqn:E.
  - destruct (remove_first_Some _ _ _ E) as (l1 & x & l2 & H1 & H2 & H3 & H4 & H5 & H6).
    exists l1, x, l2. repeat split; try assumption.
    destruct r' as [l' top']. simpl in H4, H6. subst. reflexivity.
  - exfalso. apply (proj1 Hnone); [reflexivity|exact Hex].
Qed.

Lemma remove_first_removes_first_equal_witness :
  remove_first equal_by_value (0, 4%Z)
    (mkRanker [(1, 1%Z); (2, 4%Z); (3, 4%Z); (4, 5%Z)] 4)
  = Some (mkRanker [(1, 1%Z); (3, 4%Z); (4, 5%Z)] 4, [(2, 4%Z)]) /\
  exists l1 x l2,
    [(1, 1%Z); (2, 4%Z); (3, 4%Z); (4, 5%Z)] = l1 ++ x :: l2 /\
    Forall (fun y => equal_by_value y (0, 4%Z) = false) l1 /\
    equal_by_value x (0, 4%Z) = true.
Proof.
  split; [reflexivity|].
  destruct (@remove_first_removes_first_equal (nat * Z) equal_by_value
              (0, 4%Z) (mkRanker [(1, 1%Z); (2, 4%Z); (3, 4%Z); (4, 5%Z)] 4))
    as [H _].
  destruct H as (l1 & x & l2 & H1 & H2 & H3 & _).
  - exists (3, 4%Z). split; [simpl; auto|reflexivity].
  - exists l1, x, l2. repeat split; assumption.
Defined.

(** C9: what [remove_all(T* element)] does. With [==] the identity of
    handles it erases every occurrence of [element] and keeps the other
    elements in their order, as the overload by value does; but it calls
    the disposal policy on [element] once in every case. When no
    occurrence matches, the sequence is unchanged and the policy is
    still called on [element], a handle the ranking does not hold, where
    the overload by value disposes nothing; with
    [DisposalDeletePolicy] that deletes an allocation the ranking never
    owned. *)
Theorem remove_all_ptr_disposes_unmatched_handle :
  forall (T : Type) (eqb : T -> T -> bool) (element : T) (r : Ranker (T:=T)),
    (forall x y, eqb x y = true <-> x = y) ->
    (forall x, In x (ranking (fst (remove_all_ptr eqb element r)))
               <-> In x (ranking r) /\ x <> element) /\
    subseq (ranking (fst (remove_all_ptr eqb element r))) (ranking r) /\
    snd (remove_all_ptr eqb element r) = [element] /\
    (~ In element (ranking r) ->
     remove_all_ptr eqb element r = (r, [element]) /\
     remove_all eqb element r = (r, [])) /\
    remove_all_ptr Nat.eqb 2 (mkRanker [1] 1) = (mkRanker [1] 1, [2]) /\
    run_policy DisposalDeletePolicy
      (snd (remove_all_ptr Nat.eqb 2 (mkRanker [1] 1))) (Some [1; 2])
    = Some [1].
Proof.
  intros T eqb element r Hid. simpl. unfold list_remove.
  assert (Hne : forall x, negb (eqb x element) = true <-> x <> element).
  { intros x. rewrite negb_true_iff. split.
    - intros E F. apply Hid in F. congruence.
    - intros F. destruct (eqb x element) eqn:E; [|reflexivity].
      apply Hid in E. contradiction. }
  repeat split.
  - apply filter_In in H. exact (proj1 H).
  - apply filter_In in H. apply Hne. exact (proj2 H).
  - intros [H1 H2]. apply filter_In. split; [exact H1|apply Hne; exact H2].
  - apply subseq_filter.
  - unfold remove_all_ptr, list_remove. rewrite filter_all.
    + destruct r; reflexivity.
    + intros x Hx. apply Hne. intros ->. contradiction.
  - unfold remove_all, list_remove. rewrite filter_all.
    + f_equal; [destruct r; reflexivity|].
      induction (ranking r) as [|a l IH]; simpl; [reflexivity|].
      destruct (eqb element a) eqn:E.
      * apply Hid in E. subst a. exfalso. apply H. left; reflexivity.
      * apply IH. intros F. apply H. right; exact F.
    + intros x Hx. apply Hne. intros ->. contradiction.
Qed.

Lemma remove_all_ptr_disposes_unmatched_handle_witness :
  remove_all_ptr Nat.eqb 7 (mkRanker [3; 5] 2) = (mkRanker [3; 5] 2, [7]) /\
  remove_all Nat.eqb 7 (mkRanker [3; 5] 2) = (mkRanker [3; 5] 2, []).
Proof.
  destruct (@remove_all_ptr_disposes_unmatched_handle nat Nat.eqb 7
              (mkRanker [3; 5] 2) Nat.eqb_eq) as (_ & _ & _ & H & _).
  apply H. simpl. intros [F|[F|[]]]; discriminate F.
Defined.

(** ** Insertion as truncation *)

Section TruncationFacts.
Context {T : Type}.
Variable Behavior : SameValueBehavior.
Variable Comp : T -> T -> bool.
Implicit Types (l es : list T) (r : Ranker (T:=T)) (e : T).

Lemma partition_point_firstn (p : T -> bool) n l :
  partition_point p (firstn n l) = Nat.min (partition_point p l) n.
Proof.
  revert n. induction l as [|x l IH]; intros n.
  - rewrite firstn_nil. reflexivity.
  - destruct n as [|n]; simpl.
    + rewrite Nat.min_0_r. reflexivity.
    + destruct (p x); [|reflexivity]. rewrite IH. reflexivity.
Qed.

Lemma insert_pos_firstn n l e :
  insert_pos Behavior Comp (firstn n l) e
  = Nat.min (insert_pos Behavior Comp l e) n.
Proof.
  rewrite !insert_pos_partition_point. apply partition_point_firstn.
Qed.

Lemma firstn_list_insert_firstn n pos e l :
  firstn n (list_insert (Nat.min pos n) e (firstn n l))
  = firstn n (list_insert pos e l).
Proof.
  revert n pos. induction l as [|a l IH]; intros n pos.
  - rewrite firstn_nil. unfold list_insert.
    rewrite !firstn_nil, !skipn_nil. reflexivity.
  - destruct n as [|n]; [reflexivity|]. destruct pos as [|pos].
    + change (Nat.min 0 (S n)) with 0. unfold list_insert.
      rewrite !firstn_O, !skipn_O, !app_nil_l, !firstn_cons. f_equal.
      destruct n as [|n]; [reflexivity|].
      rewrite !firstn_cons. f_equal.
      rewrite firstn_firstn. f_equal. lia.
    + change (Nat.min (S pos) (S n)) with (S (Nat.min pos n)).
      change (firstn (S n) (a :: l)) with (a :: firstn n l).
      rewrite !list_insert_cons. simpl. f_equal. apply IH.
Qed.

(** [insert] is [ranking.insert] followed by a cut at [TOP]. *)
Lemma insert_ranking_firstn e r :
  size r <= TOP r ->
  ranking (snd (fst (insert Behavior Comp e r)))
  = firstn (TOP r)
      (list_insert (insert_pos Behavior Comp (ranking r) e) e (ranking r)).
Proof.
  unfold size. intros Hinv.
  destruct (insert_cases Behavior Comp e r) as [Hlt|Hge Hpos|Hge Hpos]; simpl.
  - symmetry. apply firstn_all2. rewrite length_list_insert. lia.
  - rewrite Hpos, list_insert_end.
    replace (TOP r) with (length (ranking r)) by lia.
    rewrite firstn_app, firstn_all, Nat.sub_diag. simpl.
    symmetry. apply app_nil_r.
  - rewrite <- removelast_list_insert by exact Hpos.
    rewrite removelast_firstn_len, length_list_insert. simpl.
    f_equal. lia.
Qed.

Lemma Ranker_eta r l top :
  ranking r = l -> TOP r = top -> r = mkRanker l top.
Proof. destruct r; simpl; intros -> ->; reflexivity. Qed.

Lemma insert_all_prefix es : forall l C C',
  C <= C' -> length l <= C' ->
  ranking (snd (insert_all Behavior Comp es (mkRanker (firstn C l) C)))
  = firstn C (ranking (snd (insert_all Behavior Comp es (mkRanker l C')))).
Proof.
  induction es as [|e es IH]; intros l C C' HC Hl; [reflexivity|].
  rewrite !snd_insert_all_cons.
  pose proof (insert_size_TOP Behavior Comp e (mkRanker l C') Hl) as [Hs HT].
  pose proof (insert_ranking_firstn e (mkRanker l C') Hl) as Hbig.
  assert (Hl0 : size (mkRanker (firstn C l) C) <= TOP (mkRanker (firstn C l) C))
    by apply firstn_le_length.
  pose proof (insert_size_TOP Behavior Comp e _ Hl0) as [_ HT0].
  pose proof (insert_ranking_firstn e _ Hl0) as Hsmall.
  simpl in Hs, HT, Hbig, HT0, Hsmall.
  rewrite insert_pos_firstn, firstn_list_insert_firstn in Hsmall.
  assert (E : firstn C (list_insert (insert_pos Behavior Comp l e) e l)
              = firstn C (ranking (snd (fst (insert Behavior Comp e
                                               (mkRanker l C'))))))
    by (rewrite Hbig, firstn_firstn, Nat.min_l by exact HC; reflexivity).
  rewrite E in Hsmall.
  rewrite (Ranker_eta _ Hsmall HT0).
  rewrite (Ranker_eta (snd (fst (insert Behavior Comp e (mkRanker l C'))))
             eq_refl HT) at 2.
  apply IH; [exact HC|exact Hs].
Qed.

(** With room for every element nothing is rejected or evicted. *)
Lemma insert_all_room es : forall r,
  length (ranking r) + length es <= TOP r ->
  fst (insert_all Behavior Comp es r) = repeat true (length es) /\
  Permutation (ranking (snd (insert_all Behavior Comp es r)))
    (ranking r ++ es).
Proof.
  induction es as [|e es IH]; intros r Hroom; simpl.
  - rewrite app_nil_r. split; reflexivity.
  - simpl in Hroom.
    destruct (insert_cases Behavior Comp e r) as [Hlt|Hge Hpos|Hge Hpos];
      try lia.
    match goal with
    | |- context [insert_all Behavior Comp es ?r1] =>
        destruct (IH r1) as [H1 H2];
        [simpl; rewrite length_list_insert; lia|];
        destruct (insert_all Behavior Comp es r1) as [oks r2]
    end.
    simpl in *. split; [f_equal; exact H1|].
    rewrite H2, Permutation_list_insert. apply Permutation_middle.
Qed.
End TruncationFacts.

(** ** A run of equal-ranked insertions *)

Section EqualRunFacts.
Context {T : Type}.
Variable Behavior : SameValueBehavior.
Variable Comp : T -> T -> bool.
Variable lo hi : list T.
Variable top : nat.
Implicit Types (eq es : list T) (e : T).

Lemma list_insert_app (l1 l2 : list T) e :
  list_insert (length l1) e (l1 ++ l2) = l1 ++ e :: l2.
Proof.
  unfold list_insert.
  rewrite firstn_app, firstn_all, Nat.sub_diag, firstn_O, app_nil_r.
  rewrite skipn_app, skipn_all, Nat.sub_diag, skipn_O. reflexivity.
Qed.

(** The two ends of the equal range of [e] in a list made of elements
    less than [e], then elements equal-ranked with [e], then elements
    greater than [e]. *)
Lemma insert_pos_run eq e :
  (forall x, In x lo -> Comp x e = true /\ Comp e x = false) ->
  (forall x, In x eq -> Comp x e = false /\ Comp e x = false) ->
  (forall x, In x hi -> Comp e x = true /\ Comp x e = false) ->
  insert_pos Behavior Comp (lo ++ eq ++ hi) e
  = match Behavior with
    | AddBeforeEqual => length lo
    | AddAfterEqual => length (lo ++ eq)
    end.
Proof.
  intros Hlo Heq Hhi. rewrite insert_pos_partition_point.
  unfold sorts_at_or_below. destruct Behavior.
  - apply partition_point_unique.
    + apply Forall_forall. intros x Hx. exact (proj1 (Hlo x Hx)).
    + intros x Hx. destruct eq as [|y eq'].
      * destruct hi as [|z hi']; [discriminate|].
        injection Hx as <-. exact (proj2 (Hhi _ (or_introl eq_refl))).
      * injection Hx as <-. exact (proj1 (Heq _ (or_introl eq_refl))).
  - rewrite app_assoc. apply partition_point_unique.
    + apply Forall_forall. intros x Hx. apply negb_true_iff.
      apply in_app_or in Hx. destruct Hx as [Hx|Hx].
      * exact (proj2 (Hlo x Hx)).
      * exact (proj2 (Heq x Hx)).
    + intros x Hx. destruct hi as [|z hi']; [discriminate|].
      injection Hx as <-. apply negb_false_iff.
      exact (proj1 (Hhi _ (or_introl eq_refl))).
Qed.

Lemma insert_all_equal_run es : forall eq,
  (forall x e, In x lo -> In e es -> Comp x e = true /\ Comp e x = false) ->
  (forall x e, In x (eq ++ es) -> In e es ->
               Comp x e = false /\ Comp e x = false) ->
  (forall x e, In x hi -> In e es -> Comp e x = true /\ Comp x e = false) ->
  ranking (snd (insert_all Behavior Comp es
                  (mkRanker (firstn top (lo ++ eq ++ hi)) top)))
  = firstn top
      (lo ++ match Behavior with
             | AddBeforeEqual => rev es ++ eq
             | AddAfterEqual => eq ++ es
             end ++ hi).
Proof.
  induction es as [|e es IH]; intros eq Hlo Heq Hhi.
  - simpl. rewrite app_nil_r. destruct Behavior; reflexivity.
  - rewrite snd_insert_all_cons.
    set (r := mkRanker (firstn top (lo ++ eq ++ hi)) top).
    assert (Hr : size r <= TOP r) by apply firstn_le_length.
    pose proof (insert_size_TOP Behavior Comp e r Hr) as [_ HT].
    pose proof (insert_ranking_firstn Behavior Comp e r Hr) as Hrk.
    simpl in HT, Hrk.
    rewrite insert_pos_firstn, firstn_list_insert_firstn in Hrk.
    rewrite (@insert_pos_run eq e) in Hrk.
    + assert (Hrk' : ranking (snd (fst (insert Behavior Comp e r)))
                     = firstn top
                         (lo ++ match Behavior with
                                | AddBeforeEqual => e :: eq
                                | AddAfterEqual => eq ++ [e]
                                end ++ hi)).
      { rewrite Hrk. f_equal. destruct Behavior.
        - rewrite list_insert_app. reflexivity.
        - rewrite app_assoc, list_insert_app, <- !app_assoc. reflexivity. }
      rewrite (Ranker_eta _ Hrk' HT).
      destruct Behavior.
      * rewrite (IH (e :: eq)).
        -- simpl. rewrite <- !app_assoc. reflexivity.
        -- intros x e' Hx He'. apply Hlo; [exact Hx|right; exact He'].
        -- intros x e' Hx He'. apply Heq; [|right; exact He'].
           apply in_or_app. destruct Hx as [<-|Hx];
             [right; left; reflexivity|].
           apply in_app_or in Hx. destruct Hx as [Hx|Hx];
             [left; exact Hx|right; right; exact Hx].
        -- intros x e' Hx He'. apply Hhi; [exact Hx|right; exact He'].
      * rewrite (IH (eq ++ [e])).
        -- rewrite <- !app_assoc. reflexivity.
        -- intros x e' Hx He'. apply Hlo; [exact Hx|right; exact He'].
        -- intros x e' Hx He'. apply Heq; [|right; exact He'].
           rewrite <- app_assoc in Hx. exact Hx.
        -- intros x e' Hx He'. apply Hhi; [exact Hx|right; exact He'].
    + intros x Hx. apply Hlo; [exact Hx|left; reflexivity].
    + intros x Hx. apply Heq; [|left; reflexivity].
      apply in_or_app. left; exact Hx.
    + intros x Hx. apply Hhi; [exact Hx|left; reflexivity].
Qed.
End EqualRunFacts.

(** C5 (tie-break determinism, invariant I3). Take a ranking within its
    capacity that consists of elements [lo], then elements [eq], then
    elements [hi], and insert a sequence [es] of elements such that,
    under [Comp], every element of [lo] is less than each of them, the
    elements of [eq] and of [es] are equal-ranked with each of them
    (neither is less than the other), and each of them is less than
    every element of [hi]. All the equal-ranked elements then form one
    contiguous run between [lo] and [hi], which keep their places: with
    [AddAfterEqual] the run is [eq] followed by [es] in insertion order,
    with [AddBeforeEqual] it is [es] in reverse insertion order followed
    by [eq]; the ranking is that sequence cut at the capacity, so each
    element stays where its own [insert] call put it. From a new ranking
    this gives the first [top] elements of [es], respectively of [es]
    reversed. *)
Theorem tie_break_determinism :
  forall (T : Type) (Behavior : SameValueBehavior) (Comp : T -> T -> bool)
         (lo eq hi es : list T) (top : nat),
    (forall x e, In x lo -> In e es -> Comp x e = true /\ Comp e x = false) ->
    (forall x e, In x (eq ++ es) -> In e es ->
                 Comp x e = false /\ Comp e x = false) ->
    (forall x e, In x hi -> In e es -> Comp e x = true /\ Comp x e = false) ->
    length (lo ++ eq ++ hi) <= top ->
    ranking (snd (insert_all Behavior Comp es
                    (mkRanker (lo ++ eq ++ hi) top)))
    = firstn top
        (lo ++ match Behavior with
               | AddBeforeEqual => rev es ++ eq
               | AddAfterEqual => eq ++ es
               end ++ hi).
Proof.
  intros T Behavior Comp lo eq hi es top Hlo Heq Hhi Hlen.
  rewrite <- (insert_all_equal_run Behavior Comp lo hi top es eq Hlo Heq Hhi).
  rewrite (firstn_all2 (n := top)) by exact Hlen. reflexivity.
Qed.

Lemma tie_break_determinism_witness :
  ranking (snd (insert_all AddAfterEqual less_by_value
                  [(3, 4%Z); (4, 4%Z)]
                  (mkRanker ([(0, 1%Z)] ++ [(1, 4%Z)] ++ [(2, 6%Z)]) 4)))
  = [(0, 1%Z); (1, 4%Z); (3, 4%Z); (4, 4%Z)] /\
  ranking (snd (insert_all AddBeforeEqual less_by_value
                  [(3, 4%Z); (4, 4%Z)]
                  (mkRanker ([(0, 1%Z)] ++ [(1, 4%Z)] ++ [(2, 6%Z)]) 4)))
  = [(0, 1%Z); (4, 4%Z); (3, 4%Z); (1, 4%Z)].
Proof.
  assert (Hlo : forall x e : nat * Z,
             In x [(0, 1%Z)] -> In e [(3, 4%Z); (4, 4%Z)] ->
             less_by_value x e = true /\ less_by_value e x = false).
  { intros x e [<-|[]] [<-|[<-|[]]]; split; reflexivity. }
  assert (Heq : forall x e : nat * Z,
             In x ([(1, 4%Z)] ++ [(3, 4%Z); (4, 4%Z)]) ->
             In e [(3, 4%Z); (4, 4%Z)] ->
             less_by_value x e = false /\ less_by_value e x = false).
  { intros x e [<-|[<-|[<-|[]]]] [<-|[<-|[]]]; split; reflexivity. }
  assert (Hhi : forall x e : nat * Z,
             In x [(2, 6%Z)] -> In e [(3, 4%Z); (4, 4%Z)] ->
             less_by_value e x = true /\ less_by_value x e = false).
  { intros x e [<-|[]] [<-|[<-|[]]]; split; reflexivity. }
  assert (Hlen : length ([(0, 1%Z)] ++ [(1, 4%Z)] ++ [(2, 6%Z)]) <= 4)
    by (simpl; lia).
  split.
  - exact (@tie_break_determinism (nat * Z) AddAfterEqual less_by_value
             [(0, 1%Z)] [(1, 4%Z)] [(2, 6%Z)] [(3, 4%Z); (4, 4%Z)] 4
             Hlo Heq Hhi Hlen).
  - exact (@tie_break_determinism (nat * Z) AddBeforeEqual less_by_value
             [(0, 1%Z)] [(1, 4%Z)] [(2, 6%Z)] [(3, 4%Z); (4, 4%Z)] 4
             Hlo Heq Hhi Hlen).
Defined.

(** X1: on a ranking within its capacity, [insert] is the positional
    insertion followed by a cut at [TOP]: the sequence after the call is
    the first [TOP] elements of the sequence with the new node, and the
    size grows by one up to [TOP]. *)
Theorem insert_cuts_at_capacity :
  forall (T : Type) (Behavior : SameValueBehavior) (Comp : T -> T -> bool)
         (element : T) (r : Ranker (T:=T)),
    size r <= TOP r ->
    ranking (snd (fst (insert Behavior Comp element r)))
    = firstn (TOP r)
        (list_insert (insert_pos Behavior Comp (ranking r) element)
           element (ranking r)) /\
    size (snd (fst (insert Behavior Comp element r)))
    = Nat.min (TOP r) (S (size r)).
Proof.
  intros T Behavior Comp element r Hinv.
  pose proof (insert_ranking_firstn Behavior Comp element r Hinv) as E.
  split; [exact E|]. unfold size in *. rewrite E, length_firstn.
  rewrite length_list_insert. reflexivity.
Qed.

Lemma insert_cuts_at_capacity_witness :
  ranking (snd (fst (insert AddAfterEqual Z.ltb 4%Z
                       (mkRanker [1%Z; 5%Z; 9%Z] 3))))
  = [1%Z; 4%Z; 5%Z] /\
  size (snd (fst (insert AddAfterEqual Z.ltb 4%Z
                    (mkRanker [1%Z; 5%Z; 9%Z] 3)))) = 3.
Proof.
  apply (@insert_cuts_at_capacity Z AddAfterEqual Z.ltb 4%Z
           (mkRanker [1%Z; 5%Z; 9%Z] 3)).
  unfold size. simpl. lia.
Defined.

(** X2: under a strict weak order, rankers fed the same sequence of
    [insert] calls agree on their common part: with capacities
    [C <= C'], the ranking of capacity [C] is the first [C] elements of
    the ranking of capacity [C']. *)
Theorem smaller_capacity_is_prefix :
  forall (T : Type) (Behavior : SameValueBehavior) (Comp : T -> T -> bool)
         (es : list T) (C C' : nat),
    StrictWeakOrder Comp ->
    C <= C' ->
    ranking (snd (insert_all Behavior Comp es (new C)))
    = firstn C (ranking (snd (insert_all Behavior Comp es (new C')))).
Proof.
  intros T Behavior Comp es C C' _ HC.
  pose proof (insert_all_prefix Behavior Comp es [] HC (Nat.le_0_l C')) as H.
  rewrite firstn_nil in H. exact H.
Qed.

Lemma smaller_capacity_is_prefix_witness :
  ranking (snd (insert_all AddAfterEqual Z.ltb
                  [5%Z; 3%Z; 8%Z; 1%Z; 3%Z] (new 2)))
  = firstn 2 (ranking (snd (insert_all AddAfterEqual Z.ltb
                              [5%Z; 3%Z; 8%Z; 1%Z; 3%Z] (new 4)))).
Proof.
  apply (@smaller_capacity_is_prefix Z AddAfterEqual Z.ltb
           [5%Z; 3%Z; 8%Z; 1%Z; 3%Z] 2 4).
  - exact Z_ltb_strict_weak_order.
  - lia.
Defined.

(** X3 (the ranking keeps the best [C]): let [s] be the ranking that a
    ranker with room for every element builds from the calls
    [insert(e)] for [e] in [es]. Every one of those calls returns true
    and [s] is a permutation of [es]; a ranker of capacity [C] fed the
    same calls ends with the smaller of [C] and the number of calls as
    its size. When [Comp] is a strict weak order, [s] is sorted and the
    ranker of capacity [C] ends with the first [C] elements of [s]. *)
Theorem ranking_keeps_the_best :
  forall (T : Type) (Behavior : SameValueBehavior) (Comp : T -> T -> bool)
         (es : list T) (C : nat),
    let s := ranking (snd (insert_all Behavior Comp es (new (length es)))) in
    fst (insert_all Behavior Comp es (new (length es)))
    = repeat true (length es) /\
    Permutation s es /\
    size (snd (insert_all Behavior Comp es (new C)))
    = Nat.min C (length es) /\
    (StrictWeakOrder Comp ->
     is_sorted Comp s = true /\
     ranking (snd (insert_all Behavior Comp es (new C))) = firstn C s).
Proof.
  intros T Behavior Comp es C. cbv zeta.
  destruct (insert_all_room Behavior Comp es (new (length es)))
    as [Hok Hperm]; [simpl; lia|]. simpl in Hperm.
  assert (Hlen : length (ranking (snd (insert_all Behavior Comp es
                                         (new (length es))))) = length es)
    by (apply Permutation_length; exact Hperm).
  assert (Hpre : ranking (snd (insert_all Behavior Comp es (new C)))
                 = firstn C (ranking (snd (insert_all Behavior Comp es
                                             (new (length es)))))).
  { destruct (Nat.le_gt_cases C (length es)) as [HC|HC].
    - pose proof (insert_all_prefix Behavior Comp es [] HC
                    (Nat.le_0_l (length es))) as H.
      rewrite firstn_nil in H. exact H.
    - destruct (insert_all_room Behavior Comp es (new C)) as [_ HpC];
        [simpl; lia|]. simpl in HpC.
      pose proof (Permutation_length HpC) as HlC.
      rewrite (firstn_all2 (n := C)) by lia.
      pose proof (insert_all_prefix Behavior Comp es []
                    (Nat.lt_le_incl _ _ HC) (Nat.le_0_l C)) as H.
      rewrite firstn_nil in H. unfold new. rewrite H.
      symmetry. apply firstn_all2. unfold new in HlC. lia. }
  split; [exact Hok|]. split; [exact Hperm|]. split.
  - unfold size. rewrite Hpre, length_firstn, Hlen. reflexivity.
  - intros HComp. split; [|exact Hpre]. apply is_sorted_Sorted.
    exact (proj1 (insert_all_stable Behavior HComp (length es) es)).
Qed.

Lemma ranking_keeps_the_best_witness :
  is_sorted Z.ltb
    (ranking (snd (insert_all AddAfterEqual Z.ltb
                     [5%Z; 3%Z; 8%Z; 1%Z] (new 4)))) = true /\
  ranking (snd (insert_all AddAfterEqual Z.ltb [5%Z; 3%Z; 8%Z; 1%Z] (new 2)))
  = [1%Z; 3%Z].
Proof.
  destruct (@ranking_keeps_the_best Z AddAfterEqual Z.ltb
              [5%Z; 3%Z; 8%Z; 1%Z] 2) as (_ & _ & _ & H).
  exact (H Z_ltb_strict_weak_order).
Defined.

(** ** Top and bottom *)

(** X4: when [insert] into a full ranking returns true, the element
    evicted and disposed is the bottom the ranking had before the call,
    and the ranking after the call is the old one without that bottom,
    with the new element at its place. *)
Theorem accepted_insert_evicts_old_bottom :
  forall (T : Type) (Behavior : SameValueBehavior) (Comp : T -> T -> bool)
         (element : T) (r : Ranker (T:=T)),
    TOP r <= size r ->
    fst (fst (insert Behavior Comp element r)) = true ->
    exists b,
      bottom r = Some b /\
      ranking r = removelast (ranking r) ++ [b] /\
      snd (insert Behavior Comp element r) = [b] /\
      insert_pos Behavior Comp (ranking r) element
      <= length (removelast (ranking r)) /\
      ranking (snd (fst (insert Behavior Comp element r)))
      = list_insert (insert_pos Behavior Comp (ranking r) element) element
          (removelast (ranking r)).
Proof.
  intros T Behavior Comp element r Hfull. unfold size in Hfull.
  destruct (insert_cases Behavior Comp element r) as [Hlt|Hge Hpos|Hge Hpos];
    simpl; [lia|discriminate|intros _].
  assert (Hne : ranking r <> [])
    by (intros E; rewrite E in Hpos; simpl in Hpos; lia).
  pose proof (app_removelast_last element Hne) as E.
  exists (last (ranking r) element). repeat split.
  - apply bottom_snoc. exists (removelast (ranking r)). exact E.
  - exact E.
  - rewrite length_removelast. lia.
Qed.

Lemma accepted_insert_evicts_old_bottom_witness :
  exists b,
    bottom (mkRanker [3%Z; 5%Z; 8%Z] 3) = Some b /\
    snd (insert AddAfterEqual Z.ltb 1%Z (mkRanker [3%Z; 5%Z; 8%Z] 3)) = [b].
Proof.
  destruct (@accepted_insert_evicts_old_bottom Z AddAfterEqual Z.ltb 1%Z
              (mkRanker [3%Z; 5%Z; 8%Z] 3)) as (b & H1 & _ & H2 & _).
  - unfold size. simpl. lia.
  - reflexivity.
  - exists b. split; assumption.
Defined.

(** X5: a full, sorted ranking only gets better. Under a strict weak
    order, after [insert] into a ranking that is at capacity the new
    bottom does not rank after the old bottom. *)
Theorem full_ranking_bottom_never_worsens :
  forall (T : Type) (Behavior : SameValueBehavior) (Comp : T -> T -> bool)
         (element : T) (r : Ranker (T:=T)) (b b' : T),
    StrictWeakOrder Comp ->
    sorted Comp r ->
    TOP r <= size r ->
    bottom r = Some b ->
    bottom (snd (fst (insert Behavior Comp element r))) = Some b' ->
    Comp b b' = false.
Proof.
  intros T Behavior Comp element r b b' HComp Hs Hfull Hb.
  unfold sorted in Hs. apply is_sorted_Sorted in Hs. unfold size in Hfull.
  apply bottom_snoc in Hb. destruct Hb as [l0 Hb].
  pose proof (insert_pos_suffix Behavior HComp element Hs) as Hsuf.
  destruct (insert_cases Behavior Comp element r) as [Hlt|Hge Hpos|Hge Hpos];
    simpl; [lia| |].
  - intros Hb'. apply bottom_snoc in Hb'. destruct Hb' as [l1 Hb'].
    rewrite Hb in Hb'. apply app_inj_tail in Hb'. destruct Hb' as [_ <-].
    apply (swo_irrefl HComp).
  - intros Hb'. apply bottom_snoc in Hb'. destruct Hb' as [l1 Hb'].
    simpl in Hb'. rewrite Hb in *. rewrite removelast_last in Hb'.
    rewrite length_app in Hpos. simpl in Hpos.
    assert (Hin : In b' (list_insert
                           (insert_pos Behavior Comp (l0 ++ [b]) element)
                           element l0))
      by (rewrite Hb'; apply in_or_app; right; left; reflexivity).
    apply In_list_insert in Hin. destruct Hin as [->|Hin].
    + apply (not_goes_after_not_after Behavior HComp).
      rewrite Forall_forall in Hsuf. apply Hsuf.
      rewrite skipn_app. apply in_or_app. right.
      replace (insert_pos Behavior Comp (l0 ++ [b]) element - length l0)
        with 0 by lia.
      left; reflexivity.
    + pose proof (Sorted_not_after_last HComp _ _ Hs) as Hall.
      rewrite Forall_forall in Hall. apply Hall.
      apply in_or_app. left; exact Hin.
Qed.

Lemma full_ranking_bottom_never_worsens_witness :
  Z.ltb 8%Z 5%Z = false.
Proof.
  apply (@full_ranking_bottom_never_worsens Z AddAfterEqual Z.ltb 1%Z
           (mkRanker [3%Z; 5%Z; 8%Z] 3) 8%Z 5%Z).
  - exact Z_ltb_strict_weak_order.
  - reflexivity.
  - unfold size. simpl. lia.
  - reflexivity.
  - reflexivity.
Defined.

(** X6: [top()] and [bottom()] dereference [begin()] and [--end()]:
    they have a defined result exactly when the ranker is not empty, that
    is when [size()] is not zero. On a sorted ranking under a strict weak
    order no element is less than the top and the bottom is less than no
    element. *)
Theorem top_and_bottom_are_extremes :
  forall (T : Type) (Comp : T -> T -> bool) (r : Ranker (T:=T)),
    (empty r = true <-> size r = 0) /\
    (empty r = true <-> begin r = end_ r) /\
    top r = deref r (begin r) /\
    bottom r = deref r (pred (end_ r)) /\
    (top r = None <-> empty r = true) /\
    (bottom r = None <-> empty r = true) /\
    (StrictWeakOrder Comp -> sorted Comp r ->
     forall t b x,
       top r = Some t -> bottom r = Some b -> In x (ranking r) ->
       Comp x t = false /\ Comp b x = false).
Proof.
  intros T Comp r.
  assert (Hbot : bottom r = deref r (pred (end_ r))).
  { unfold deref, end_. destruct (snoc_cases (ranking r)) as [E|[l0 [b E]]].
    - unfold bottom. rewrite E. reflexivity.
    - rewrite (proj2 (bottom_snoc r b) (ex_intro _ l0 E)), E.
      rewrite length_app, Nat.add_1_r. simpl.
      rewrite nth_error_app2, Nat.sub_diag by lia. reflexivity. }
  split; [|split; [|split; [|split; [|split; [|split]]]]].
  - unfold empty, size.
    destruct (ranking r); split; intros H; (reflexivity || discriminate H).
  - unfold empty, begin, end_.
    destruct (ranking r); split; intros H; (reflexivity || discriminate H).
  - unfold top, deref, begin. destruct (ranking r); reflexivity.
  - exact Hbot.
  - unfold top, empty.
    destruct (ranking r); split; intros H; (reflexivity || discriminate H).
  - unfold bottom, empty.
    destruct (ranking r); split; intros H; (reflexivity || discriminate H).
  - intros HComp Hs t b x Ht Hb Hx.
    unfold sorted in Hs. apply is_sorted_Sorted in Hs. split.
    + apply (Sorted_strongly HComp) in Hs. unfold top in Ht.
      destruct (ranking r) as [|a l]; [discriminate|].
      injection Ht as <-. apply StronglySorted_inv in Hs.
      destruct Hs as [_ Hf]. rewrite Forall_forall in Hf.
      destruct Hx as [<-|Hx]; [apply (swo_irrefl HComp)|exact (Hf x Hx)].
    + apply bottom_snoc in Hb. destruct Hb as [l0 E]. rewrite E in *.
      pose proof (Sorted_not_after_last HComp _ _ Hs) as Hall.
      rewrite Forall_forall in Hall. exact (Hall x Hx).
Qed.

Lemma top_and_bottom_are_extremes_witness :
  Z.ltb 5%Z 3%Z = false /\ Z.ltb 8%Z 5%Z = false.
Proof.
  destruct (@top_and_bottom_are_extremes Z Z.ltb (mkRanker [3%Z; 5%Z; 8%Z] 3))
    as (_ & _ & _ & _ & _ & _ & H).
  apply (H Z_ltb_strict_weak_order eq_refl 3%Z 8%Z 5%Z eq_refl eq_refl).
  simpl. auto.
Defined.

(** ** How the operations compose *)

Section ComposeFacts.
Context {T : Type}.
Variable Behavior : SameValueBehavior.
Variable Comp : T -> T -> bool.
Variable eqb : T -> T -> bool.
Implicit Types (l : list T) (r : Ranker (T:=T)) (x e : T).

Lemma find_middle l1 l2 x e :
  Forall (fun y => eqb y e = false) l1 -> eqb x e = true ->
  find eqb (l1 ++ x :: l2) e = length l1.
Proof.
  intros H Hx. induction H as [|y l1 Hy _ IH]; simpl.
  - rewrite Hx. reflexivity.
  - rewrite Hy, IH. reflexivity.
Qed.

Lemma list_erase_middle l1 l2 x :
  list_erase (length l1) (l1 ++ x :: l2) = l1 ++ l2.
Proof.
  unfold list_erase. induction l1 as [|y l1 IH]; simpl; [reflexivity|].
  f_equal. exact IH.
Qed.

Lemma remove_first_middle l1 l2 x e top :
  Forall (fun y => eqb y e = false) l1 -> eqb x e = true ->
  remove_first eqb e (mkRanker (l1 ++ x :: l2) top)
  = Some (mkRanker (l1 ++ l2) top, [x]).
Proof.
  intros H Hx. unfold remove_first. simpl.
  rewrite (find_middle l2 H Hx).
  rewrite nth_error_app2, Nat.sub_diag by lia. simpl.
  rewrite list_erase_middle. reflexivity.
Qed.

Lemma filter_none (p : T -> bool) l :
  Forall (fun y => p y = false) l -> filter p l = [].
Proof.
  induction 1 as [|y l Hy _ IH]; simpl; [reflexivity|].
  rewrite Hy. exact IH.
Qed.

Lemma Forall_list_remove e l :
  Forall (fun y => eqb y e = false) (list_remove eqb e l).
Proof.
  apply Forall_forall. intros y Hy. apply filter_In in Hy.
  apply negb_true_iff. exact (proj2 Hy).
Qed.

Lemma remove_first_ptr_None e r :
  remove_first_ptr eqb e r = None <-> remove_first eqb e r = None.
Proof.
  unfold remove_first_ptr, remove_first.
  destruct (Nat.ltb_spec (find eqb (ranking r) e) (length (ranking r)))
    as [Hlt|Hge].
  - apply nth_error_Some in Hlt.
    destruct (nth_error (ranking r) (find eqb (ranking r) e));
      [split; discriminate|contradiction].
  - apply nth_error_None in Hge. rewrite Hge. split; reflexivity.
Qed.

Lemma run_app ops1 : forall ops2 r,
  run Behavior Comp eqb (ops1 ++ ops2) r
  = match run Behavior Comp eqb ops1 r with
    | None => None
    | Some (r1, d1) =>
        match run Behavior Comp eqb ops2 r1 with
        | None => None
        | Some (r2, d2) => Some (r2, d1 ++ d2)
        end
    end.
Proof.
  induction ops1 as [|o ops1 IH]; intros ops2 r; simpl.
  - destruct (run Behavior Comp eqb ops2 r) as [[r2 d2]|]; reflexivity.
  - destruct (step Behavior Comp eqb o r) as [[r1 d1]|]; [|reflexivity].
    rewrite IH.
    destruct (run Behavior Comp eqb ops1 r1) as [[r2 d2]|]; [|reflexivity].
    destruct (run Behavior Comp eqb ops2 r2) as [[r3 d3]|]; [|reflexivity].
    rewrite app_assoc. reflexivity.
Qed.
End ComposeFacts.

(** X7: [insert] followed by [remove_first] of the same element, when
    [element == element] holds and no element held before compares equal
    to it. Below capacity the two calls restore the ranker and dispose
    the element. At capacity, if [insert] returned true, the ranker is
    left without its old bottom. If [insert] returned false, the element
    is not in the ranking and [remove_first] dereferences
    [ranking.end()]: it has no defined result. *)
Theorem insert_then_remove_first :
  forall (T : Type) (Behavior : SameValueBehavior) (Comp eqb : T -> T -> bool)
         (element : T) (r : Ranker (T:=T)),
    eqb element element = true ->
    Forall (fun y => eqb y element = false) (ranking r) ->
    (size r < TOP r ->
     remove_first eqb element (snd (fst (insert Behavior Comp element r)))
     = Some (r, [element])) /\
    (TOP r <= size r ->
     fst (fst (insert Behavior Comp element r)) = true ->
     remove_first eqb element (snd (fst (insert Behavior Comp element r)))
     = Some (mkRanker (removelast (ranking r)) (TOP r), [element])) /\
    (fst (fst (insert Behavior Comp element r)) = false ->
     remove_first eqb element (snd (fst (insert Behavior Comp element r)))
     = None).
Proof.
  intros T Behavior Comp eqb element r Hrefl Hnone. unfold size.
  assert (Hpre : forall n, Forall (fun y => eqb y element = false)
                             (firstn n (ranking r))).
  { intros n. rewrite Forall_forall in *. intros y Hy.
    apply Hnone. exact (In_firstn _ _ _ Hy). }
  destruct (insert_cases Behavior Comp element r) as [Hlt|Hge Hpos|Hge Hpos];
    simpl; (split; [|split]); intros; try lia; try discriminate.
  - unfold list_insert. rewrite remove_first_middle by auto.
    rewrite firstn_skipn. destruct r; reflexivity.
  - apply remove_first_None. exact Hnone.
  - unfold list_insert. rewrite remove_first_middle.
    + rewrite firstn_skipn. reflexivity.
    + rewrite removelast_firstn_len, firstn_firstn. apply Hpre.
    + exact Hrefl.
Qed.

Lemma insert_then_remove_first_witness :
  remove_first Z.eqb 4%Z
    (snd (fst (insert AddAfterEqual Z.ltb 4%Z (mkRanker [1%Z; 5%Z] 3))))
  = Some (mkRanker [1%Z; 5%Z] 3, [4%Z]) /\
  remove_first Z.eqb 9%Z
    (snd (fst (insert AddAfterEqual Z.ltb 9%Z (mkRanker [1%Z; 5%Z] 2))))
  = None.
Proof.
  split.
  - apply (@insert_then_remove_first Z AddAfterEqual Z.ltb Z.eqb 4%Z
             (mkRanker [1%Z; 5%Z] 3)).
    + reflexivity.
    + repeat constructor.
    + unfold size. simpl. lia.
  - apply (@insert_then_remove_first Z AddAfterEqual Z.ltb Z.eqb 9%Z
             (mkRanker [1%Z; 5%Z] 2)).
    + reflexivity.
    + repeat constructor.
    + reflexivity.
Defined.

(** X8: after [remove_all(element)] no element equal to [element] is
    left, so a following [remove_first(element)], by value or by
    identity, dereferences or erases [ranking.end()] and has no defined
    result; with a symmetric [==], a second [remove_all(element)] changes
    nothing and disposes nothing. *)
Theorem after_remove_all_nothing_to_remove :
  forall (T : Type) (eqb : T -> T -> bool) (element : T) (r : Ranker (T:=T)),
    remove_first eqb element (fst (remove_all eqb element r)) = None /\
    remove_first_ptr eqb element (fst (remove_all eqb element r)) = None /\
    ((forall x y, eqb x y = eqb y x) ->
     remove_all eqb element (fst (remove_all eqb element r))
     = (fst (remove_all eqb element r), [])).
Proof.
  intros T eqb element r.
  assert (H : remove_first eqb element (fst (remove_all eqb element r)) = None)
    by (apply remove_first_None; simpl; apply Forall_list_remove).
  split; [exact H|]. split; [apply remove_first_ptr_None; exact H|].
  intros Hsym. unfold remove_all. simpl. f_equal.
  - f_equal. unfold list_remove. apply filter_all.
    intros x Hx. apply filter_In in Hx. exact (proj2 Hx).
  - apply filter_none. apply Forall_forall. intros y Hy.
    apply filter_In in Hy. rewrite Hsym. apply negb_true_iff.
    exact (proj2 Hy).
Qed.

Lemma after_remove_all_nothing_to_remove_witness :
  remove_all Z.eqb 4%Z (fst (remove_all Z.eqb 4%Z (mkRanker [1%Z; 4%Z; 4%Z] 3)))
  = (mkRanker [1%Z] 3, []).
Proof.
  destruct (@after_remove_all_nothing_to_remove Z Z.eqb 4%Z
              (mkRanker [1%Z; 4%Z; 4%Z] 3)) as (_ & _ & H).
  exact (H Z.eqb_sym).
Defined.

(** X9: with a symmetric [==], [remove_all(element)] is
    [remove_first(element)] followed by [remove_all(element)]: whenever
    [remove_first] has a defined result, both ways end with the same
    ranker and call the disposal policy on the same elements in the same
    order. *)
Theorem remove_all_after_remove_first :
  forall (T : Type) (eqb : T -> T -> bool) (element : T)
         (r r1 : Ranker (T:=T)) (d1 : list T),
    (forall x y, eqb x y = eqb y x) ->
    remove_first eqb element r = Some (r1, d1) ->
    remove_all eqb element r
    = (fst (remove_all eqb element r1),
       d1 ++ snd (remove_all eqb element r1)).
Proof.
  intros T eqb element r r1 d1 Hsym H.
  apply remove_first_Some in H.
  destruct H as (l1 & x & l2 & E & Hl1 & Hx & E1 & -> & HT).
  unfold remove_all, list_remove. simpl. rewrite E, E1, HT.
  rewrite !filter_app. simpl. rewrite Hx, (Hsym element x), Hx. simpl.
  f_equal. rewrite (filter_none (fun y => eqb element y) (l := l1)).
  - reflexivity.
  - revert Hl1. apply Forall_impl. intros y Hy. rewrite Hsym. exact Hy.
Qed.

Lemma remove_all_after_remove_first_witness :
  remove_all equal_by_value (0, 4%Z)
    (mkRanker [(1, 1%Z); (2, 4%Z); (3, 4%Z)] 3)
  = (mkRanker [(1, 1%Z)] 3, [(2, 4%Z)] ++ [(3, 4%Z)]).
Proof.
  exact (@remove_all_after_remove_first (nat * Z) equal_by_value (0, 4%Z)
           (mkRanker [(1, 1%Z); (2, 4%Z); (3, 4%Z)] 3)
           (mkRanker [(1, 1%Z); (3, 4%Z)] 3) [(2, 4%Z)]
           equal_by_value_sym eq_refl).
Defined.

(** X10: [remove_first(T* element)] erases the same node as
    [remove_first(const T& element)] and is undefined in the same cases,
    but it calls the disposal policy on its argument, where the overload
    by value calls it on the element found in the ranking; when [==] is
    identity the two overloads agree. *)
Theorem remove_first_ptr_disposes_argument :
  forall (T : Type) (eqb : T -> T -> bool) (element : T) (r : Ranker (T:=T)),
    (remove_first_ptr eqb element r = None <->
     remove_first eqb element r = None) /\
    (forall r' d,
        remove_first eqb element r = Some (r', d) ->
        remove_first_ptr eqb element r = Some (r', [element]) /\
        exists x, d = [x] /\ eqb x element = true) /\
    ((forall x y, eqb x y = true <-> x = y) ->
     remove_first_ptr eqb element r = remove_first eqb element r).
Proof.
  intros T eqb element r.
  assert (Hsome : forall r' d,
             remove_first eqb element r = Some (r', d) ->
             remove_first_ptr eqb element r = Some (r', [element]) /\
             exists x, d = [x] /\ eqb x element = true).
  { intros r' d H. pose proof (remove_first_Some _ _ _ H) as Hs.
    destruct Hs as (l1 & x & l2 & _ & _ & Hx & _ & Hd & _).
    split; [|exists x; split; assumption].
    revert H. unfold remove_first, remove_first_ptr.
    destruct (nth_error (ranking r) (find eqb (ranking r) element))
      as [y|] eqn:E; [|discriminate].
    intros [= <- _].
    assert (Hlt : find eqb (ranking r) element < length (ranking r))
      by (apply nth_error_Some; congruence).
    apply Nat.ltb_lt in Hlt. rewrite Hlt. reflexivity. }
  split; [apply remove_first_ptr_None|]. split; [exact Hsome|].
  intros Hid. destruct (remove_first eqb element r) as [[r' d]|] eqn:E.
  - destruct (Hsome r' d eq_refl) as [H (x & -> & Hx)].
    apply Hid in Hx. subst x. exact H.
  - apply remove_first_ptr_None. exact E.
Qed.

Lemma remove_first_ptr_disposes_argument_witness :
  remove_first_ptr Nat.eqb 5 (mkRanker [3; 5; 7] 3)
  = remove_first Nat.eqb 5 (mkRanker [3; 5; 7] 3).
Proof.
  destruct (@remove_first_ptr_disposes_argument nat Nat.eqb 5
              (mkRanker [3; 5; 7] 3)) as (_ & _ & H).
  exact (H Nat.eqb_eq).
Defined.

Lemma step_TOP {T : Type} (Behavior : SameValueBehavior)
  (Comp eqb : T -> T -> bool) (o : Op (T:=T)) (r r' : Ranker (T:=T))
  (d : list T) :
  step Behavior Comp eqb o r = Some (r', d) -> TOP r' = TOP r.
Proof.
  intros Hstep. destruct (added o) as [|a ?] eqn:Ha.
  - exact (proj2 (step_removal_subseq Behavior Comp eqb o r Ha Hstep)).
  - destruct o as [e| | | | |]; try discriminate. simpl in Hstep.
    destruct (insert_cases Behavior Comp e r); injection Hstep as <- _;
      reflexivity.
Qed.

(** X11: [clear] puts the ranker back into the state of a newly
    constructed ranker of the capacity it was constructed with. In a
    sequence of calls, the calls after a [clear] behave as on a new
    ranker, whatever was done before; the [clear] disposes the elements
    held at that point, in order, and a destructor run right after it
    disposes nothing. *)
Theorem clear_resets_to_new :
  forall (T : Type) (Behavior : SameValueBehavior) (Comp eqb : T -> T -> bool)
         (ops1 ops2 : list (Op (T:=T))) (r r1 : Ranker (T:=T)) (d1 : list T),
    run Behavior Comp eqb ops1 r = Some (r1, d1) ->
    fst (clear r1) = new (TOP r) /\
    destroy (fst (clear r1)) = [] /\
    run Behavior Comp eqb (ops1 ++ OpClear :: ops2) r
    = match run Behavior Comp eqb ops2 (new (TOP r)) with
      | None => None
      | Some (r2, d2) => Some (r2, d1 ++ ranking r1 ++ d2)
      end.
Proof.
  intros T Behavior Comp eqb ops1 ops2 r r1 d1 Hrun.
  assert (HT : TOP r1 = TOP r).
  { refine (@run_invariant T Behavior Comp eqb (fun r0 => TOP r0 = TOP r) _
              ops1 r r1 d1 eq_refl Hrun).
    intros o r0 r0' d0 H0 Hs. rewrite (step_TOP _ _ _ _ _ Hs). exact H0. }
  split; [unfold clear, new; simpl; rewrite HT; reflexivity|].
  split; [reflexivity|].
  rewrite run_app, Hrun. simpl. rewrite HT. unfold new.
  destruct (run Behavior Comp eqb ops2 {| ranking := []; TOP := TOP r |})
    as [[r2 d2]|]; reflexivity.
Qed.

Lemma clear_resets_to_new_witness :
  run AddAfterEqual Z.ltb Z.eqb
    ([OpInsert 5%Z; OpInsert 3%Z] ++ OpClear :: [OpInsert 9%Z]) (new 2)
  = Some (mkRanker [9%Z] 2, [] ++ [3%Z; 5%Z] ++ []).
Proof.
  destruct (@clear_resets_to_new Z AddAfterEqual Z.ltb Z.eqb
              [OpInsert 5%Z; OpInsert 3%Z] [OpInsert 9%Z] (new 2)
              (mkRanker [3%Z; 5%Z] 2) [] eq_refl) as (_ & _ & H).
  exact H.
Defined.

(** X12: a removal makes room. On a ranking within its capacity, after a
    [remove_first] with a defined result the next [insert] returns true
    and evicts nothing, and the size is what it was before the
    removal. *)
Theorem insert_after_remove_first_is_accepted :
  forall (T : Type) (Behavior : SameValueBehavior) (Comp eqb : T -> T -> bool)
         (x element : T) (r r1 : Ranker (T:=T)) (d : list T),
    size r <= TOP r ->
    remove_first eqb x r = Some (r1, d) ->
    fst (fst (insert Behavior Comp element r1)) = true /\
    snd (insert Behavior Comp element r1) = [] /\
    size (snd (fst (insert Behavior Comp element r1))) = size r.
Proof.
  intros T Behavior Comp eqb x element r r1 d Hinv H. unfold size in *.
  apply remove_first_Some in H.
  destruct H as (l1 & y & l2 & E & _ & _ & E1 & _ & HT).
  assert (Hlen : S (length (ranking r1)) = length (ranking r)).
  { rewrite E, E1, !length_app. simpl. lia. }
  destruct (insert_cases Behavior Comp element r1) as [Hlt|Hge Hpos|Hge Hpos];
    simpl; try lia.
  rewrite length_list_insert. repeat split. exact Hlen.
Qed.

Lemma insert_after_remove_first_is_accepted_witness :
  fst (fst (insert AddAfterEqual Z.ltb 9%Z (mkRanker [1%Z; 5%Z] 3))) = true.
Proof.
  apply (@insert_after_remove_first_is_accepted Z AddAfterEqual Z.ltb Z.eqb
           3%Z 9%Z (mkRanker [1%Z; 3%Z; 5%Z] 3) (mkRanker [1%Z; 5%Z] 3)
           [3%Z]).
  - unfold size. simpl. lia.
  - reflexivity.
Defined.

(** ** [DisposalDeletePolicy] *)

Lemma run_policy_delete_None (calls : list nat) :
  run_policy DisposalDeletePolicy calls None = None.
Proof.
  unfold run_policy. induction calls as [|a calls IH]; simpl; [reflexivity|].
  exact IH.
Qed.

Lemma run_policy_delete_cons (a : nat) (calls live : list nat) :
  run_policy DisposalDeletePolicy (a :: calls) (Some live)
  = if Nat.eqb a 0
    then run_policy DisposalDeletePolicy calls (Some live)
    else if existsb (Nat.eqb a) live
         then run_policy DisposalDeletePolicy calls
                (Some (filter (fun b => negb (Nat.eqb a b)) live))
         else None.
Proof.
  unfold run_policy. simpl. destruct (Nat.eqb a 0); [reflexivity|].
  destruct (existsb (Nat.eqb a) live);
    [reflexivity|apply run_policy_delete_None].
Qed.

Lemma In_filter_neq (a b : nat) (live : list nat) :
  In b (filter (fun c => negb (Nat.eqb a c)) live) <-> In b live /\ b <> a.
Proof.
  rewrite filter_In, negb_true_iff, Nat.eqb_neq. intuition congruence.
Qed.

Lemma existsb_eqb_In (a : nat) (live : list nat) :
  existsb (Nat.eqb a) live = true <-> In a live.
Proof.
  rewrite existsb_exists. split.
  - intros (b & Hb & E). apply Nat.eqb_eq in E. congruence.
  - intros H. exists a. split; [exact H|apply Nat.eqb_refl].
Qed.

Lemma non_null_cons (a : nat) (calls : list nat) :
  non_null (a :: calls)
  = if Nat.eqb a 0 then non_null calls else a :: non_null calls.
Proof. unfold non_null. simpl. destruct (Nat.eqb a 0); reflexivity. Qed.

Lemma run_policy_delete_ok : forall calls live,
  run_policy DisposalDeletePolicy calls (Some live) <> None <->
  NoDup (non_null calls) /\ incl (non_null calls) live.
Proof.
  induction calls as [|a calls IH]; intros live.
  - simpl. split; [intros _; split; [constructor|intros x []]|discriminate].
  - rewrite run_policy_delete_cons, non_null_cons.
    destruct (Nat.eqb a 0); [apply IH|].
    destruct (existsb (Nat.eqb a) live) eqn:Ea.
    + apply existsb_eqb_In in Ea. rewrite IH. split.
      * intros [Hn Hi]. split.
        -- constructor; [|exact Hn]. intros Ha. apply Hi in Ha.
           apply In_filter_neq in Ha. destruct Ha as [_ Ha]. congruence.
        -- intros x [<-|Hx]; [exact Ea|].
           apply Hi in Hx. apply In_filter_neq in Hx. exact (proj1 Hx).
      * intros [Hn Hi]. inversion Hn as [|? ? Ha Hn']; subst.
        split; [exact Hn'|]. intros x Hx. apply In_filter_neq.
        split; [apply Hi; right; exact Hx|]. intros ->. contradiction.
    + split; [congruence|]. intros [_ Hi]. exfalso.
      assert (Ha : In a live) by (apply Hi; left; reflexivity).
      apply existsb_eqb_In in Ha. congruence.
Qed.

(** X13: with [DisposalDeletePolicy], where [delete] of the null pointer
    does nothing and [delete] of any other address that is not a live
    allocation is a fault: the disposal calls of a member function run
    without fault exactly when the handles disposed that are not null are
    pairwise distinct and live, and then exactly those allocations are
    freed. In particular the destructor of a ranker frees every handle
    it holds if the handles that are not null are distinct and live, and
    [remove_all] by value of a handle held twice that is not null deletes
    it twice. *)
Theorem delete_policy_faults_on_repeated_handle :
  forall (calls live : list nat),
    (run_policy DisposalDeletePolicy calls (Some live) <> None <->
     NoDup (non_null calls) /\ incl (non_null calls) live) /\
    (forall live',
        run_policy DisposalDeletePolicy calls (Some live) = Some live' ->
        forall b, In b live' <-> In b live /\ ~ In b (non_null calls)) /\
    (forall r : Ranker (T:=nat),
        NoDup (non_null (ranking r)) -> incl (non_null (ranking r)) live ->
        run_policy DisposalDeletePolicy (destroy r) (Some live) <> None) /\
    (forall (h : nat) (r : Ranker (T:=nat)),
        h <> 0 ->
        ~ NoDup (filter (Nat.eqb h) (ranking r)) ->
        run_policy DisposalDeletePolicy (snd (remove_all Nat.eqb h r))
          (Some live) = None).
Proof.
  intros calls live. split; [apply run_policy_delete_ok|]. split; [|split].
  - revert live. induction calls as [|a calls IH]; intros live live'.
    + simpl. intros [= <-] b. split; [intros H; split; [exact H|intros []]|].
      intros [H _]; exact H.
    + rewrite run_policy_delete_cons, non_null_cons.
      destruct (Nat.eqb a 0); [apply IH|].
      destruct (existsb (Nat.eqb a) live); [|discriminate].
      intros H b. rewrite (IH _ _ H b), In_filter_neq. simpl.
      intuition congruence.
  - intros r Hn Hi. apply run_policy_delete_ok. split; assumption.
  - intros h r Hh Hdup. simpl.
    destruct (run_policy DisposalDeletePolicy
                (filter (Nat.eqb h) (ranking r)) (Some live))
      as [live'|] eqn:E; [|reflexivity].
    exfalso. apply Hdup.
    assert (Hne : run_policy DisposalDeletePolicy
                    (filter (Nat.eqb h) (ranking r)) (Some live) <> None)
      by congruence.
    apply run_policy_delete_ok in Hne. destruct Hne as [Hne _].
    unfold non_null in Hne. rewrite filter_all in Hne; [exact Hne|].
    intros x Hx. apply filter_In in Hx. destruct Hx as [_ Hx].
    apply Nat.eqb_eq in Hx. subst x.
    apply negb_true_iff, Nat.eqb_neq. exact Hh.
Qed.

Lemma delete_policy_faults_on_repeated_handle_witness :
  run_policy DisposalDeletePolicy (snd (remove_all Nat.eqb 7 (mkRanker [7; 7] 2)))
    (Some [7; 9]) = None /\
  run_policy DisposalDeletePolicy (destroy (mkRanker [0; 7; 0] 3))
    (Some [7; 9]) <> None.
Proof.
  destruct (delete_policy_faults_on_repeated_handle [] [7; 9])
    as (_ & _ & H3 & H4).
  split.
  - apply H4; [discriminate|]. simpl. intros Hn.
    inversion Hn as [|? ? Ha _]; subst. apply Ha. left; reflexivity.
  - apply H3; simpl.
    + repeat constructor. intros [].
    + intros x [<-|[]]. left; reflexivity.
Defined.

(** X14: the rank a new element gets. On a sorted ranking under a strict
    weak order [ranking.insert] puts the new node at the index that
    counts the elements it goes behind: with [AddBeforeEqual] the
    elements less than it, with [AddAfterEqual] the elements it is not
    less than. The choice between the two ends of the equal range
    therefore moves the node by the number of elements equal-ranked
    with it. *)
Theorem inserted_element_rank :
  forall (T : Type) (Comp : T -> T -> bool) (element : T) (r : Ranker (T:=T)),
    StrictWeakOrder Comp ->
    sorted Comp r ->
    insert_pos AddBeforeEqual Comp (ranking r) element
    = length (filter (fun x => Comp x element) (ranking r)) /\
    insert_pos AddAfterEqual Comp (ranking r) element
    = length (filter (fun x => negb (Comp element x)) (ranking r)) /\
    insert_pos AddAfterEqual Comp (ranking r) element
    = insert_pos AddBeforeEqual Comp (ranking r) element
      + length (filter (equiv Comp element) (ranking r)).
Proof.
  intros T Comp element r HComp Hs.
  unfold sorted in Hs. apply is_sorted_Sorted in Hs.
  pose proof (insert_pos_count AddBeforeEqual HComp element Hs) as Hlo.
  pose proof (insert_pos_count AddAfterEqual HComp element Hs) as Hhi.
  unfold sorts_at_or_below in Hlo, Hhi.
  split; [exact Hlo|]. split; [exact Hhi|].
  rewrite Hlo, Hhi. clear Hlo Hhi Hs.
  induction (ranking r) as [|x l IH]; [reflexivity|]. simpl.
  unfold equiv at 1.
  destruct (Comp x element) eqn:E1; destruct (Comp element x) eqn:E2; simpl;
    rewrite ?IH; try lia.
  rewrite (swo_asym HComp _ _ E1) in E2. discriminate.
Qed.

Lemma inserted_element_rank_witness :
  insert_pos AddBeforeEqual Z.ltb [1%Z; 4%Z; 4%Z; 6%Z] 4%Z = 1 /\
  insert_pos AddAfterEqual Z.ltb [1%Z; 4%Z; 4%Z; 6%Z] 4%Z = 1 + 2.
Proof.
  destruct (@inserted_element_rank Z Z.ltb 4%Z
              (mkRanker [1%Z; 4%Z; 4%Z; 6%Z] 4)
              Z_ltb_strict_weak_order eq_refl) as (H1 & _ & H3).
  cbn [ranking] in H1, H3.
  split; [exact H1|]. rewrite H3, H1. reflexivity.
Defined.
